(** * installplan-operator: the approval engine and the reconciliation loop

    A shallow embedding of [installplan_operator/main.py] and of the values
    of [installplan_operator/config.py] it reads.  The Python code talks to
    three outside parties: the cluster API (the OpenShift dynamic client),
    the directory of update specifications, and the clock together with the
    event queue fed by the two watcher threads.  Each of them is a field of
    an explicit environment or state, and every method of [Approver] is a
    function in a state-and-exception monad over that state. *)

From Stdlib Require Import ZArith String List Lia.
From stdpp Require Import base option list gmap strings pretty.

Set Default Proof Using "Type".

(** ** Exceptions

    The exception classes the code names, with the subclass relation of
    [openshift.dynamic.exceptions]: [NotFoundError] and [UnauthorizedError]
    both derive from [DynamicApiError].  Every other class that can reach
    the code ([KeyError], [IndexError], [AttributeError], [ValueError],
    a YAML error, ...) is [OtherError] with its class name. *)

Inductive exc : Type :=
| NotFoundError (summary : string)
| UnauthorizedError (summary : string)
| DynamicApiError (summary : string)
| FileNotFoundError (msg : string)
| QueueEmpty
| OtherError (cls : string) (msg : string).

(** [isinstance(e, DynamicApiError)] *)
Definition is_DynamicApiError (e : exc) : bool :=
  match e with
  | NotFoundError _ | UnauthorizedError _ | DynamicApiError _ => true
  | _ => false
  end.

(** [err.summary()] of an API error *)
Definition summary (e : exc) : string :=
  match e with
  | NotFoundError s | UnauthorizedError s | DynamicApiError s => s
  | FileNotFoundError s => s
  | QueueEmpty => ""
  | OtherError _ s => s
  end.

(** ** Data model *)

(** [installplan_operator/config.py]: the values the core reads.  Times are
    clock ticks (seconds in the defaults); [time.time()] is read in the same
    unit. *)
Record Config : Type := {
  approve_updates : bool;
  max_interval : Z;
  min_interval : Z;
}.

(** The defaults of config.py: dry run, 900 and 10 seconds. *)
Definition default_config : Config :=
  {| approve_updates := false; max_interval := 900; min_interval := 10 |}.

(** [sub.status.installPlanRef.name]; a Subscription that has no install
    plan yet has no [installPlanRef]. *)
Record Subscription : Type := {
  installPlanRef : option string;
}.

(** [plan.spec] of an InstallPlan ([ip_spec]): the two fields the code reads, and every
    other field of the object as an association list. *)
Record PlanSpec : Type := {
  approved : bool;
  clusterServiceVersionNames : list string;
  other_fields : list (string * string);
}.

Record InstallPlan : Type := {
  metadata_name : string;
  ip_spec : PlanSpec;
}.

(** [plan.spec.approved = True]: the same object with one field changed. *)
Definition set_approved (plan : InstallPlan) : InstallPlan :=
  {| metadata_name := metadata_name plan;
     ip_spec := {| approved := true;
                   clusterServiceVersionNames := clusterServiceVersionNames (ip_spec plan);
                   other_fields := other_fields (ip_spec plan) |} |}.

(** An entry of [config_dir]: its name, what [is_file()] answers, and what
    opening it and [yaml.safe_load] give: the mapping of the update
    specification, or the exception raised on the way. *)
Record DirEntry : Type := {
  de_name : string;
  de_is_file : bool;
  de_load : exc + gmap string string;
}.

(** Events on the queue: [('fs', event)], [('subscription', event)] and the
    synthesized [('timeout',)]. *)
Inductive Event : Type :=
| FsEvent (payload : string)
| SubscriptionEvent (payload : string)
| Timeout.

(** [event[0]] *)
Definition event_kind (ev : Event) : string :=
  match ev with
  | FsEvent _ => "fs"
  | SubscriptionEvent _ => "subscription"
  | Timeout => "timeout"
  end.

(** The calls made on the cluster API. *)
Inductive ApiCall : Type :=
| GetSubscription (name namespace : string)
| GetInstallPlan (name namespace : string)
| PatchInstallPlan (body : InstallPlan) (namespace : string).

(** ** Logging

    One constructor per [LOG] call of main.py, holding the arguments of the
    format string; [render] is the formatted message. *)

Inductive level : Type := DEBUG | INFO | WARNING | ERROR.

Inductive LogMsg : Type :=
| LIgnoring (kind : string) (t_last t_start t_delta : Z)
| LTriggered (kind : string)
| LFinished (sub_count : nat) (t_delta : Z)
| LUnableToFind (summ : string)
| LProcessing (name namespace : string)
| LGotPlan (name plan_name : string)
| LInvalidVersion (name have want : string)
| LAlreadyApproved (name version : string)
| LApprove (name version : string) (dry_run : bool)
| LAuthFailed (summ : string)
| LApiError (summ : string)
| LConfigDir (msg : string).

Definition render (m : LogMsg) : string :=
  match m with
  | LIgnoring k tl ts td =>
      "ignoring " +:+ k +:+ " event (too soon), t_last=" +:+ pretty tl
        +:+ ", t_start=" +:+ pretty ts +:+ ", t_delta=" +:+ pretty td
  | LTriggered k => "subscription check triggered by " +:+ k +:+ " event"
  | LFinished n td =>
      "finished subscription check; " +:+ pretty n +:+ " subscriptions in "
        +:+ pretty td +:+ " seconds"
  | LUnableToFind s => "unable to find requested resource: " +:+ s
  | LProcessing n ns => "processing subscription " +:+ n +:+ " in namespace " +:+ ns
  | LGotPlan n p => n +:+ ": got installplan " +:+ p
  | LInvalidVersion n h w => n +:+ ": invalid version: have=" +:+ h +:+ ", want=" +:+ w
  | LAlreadyApproved n v => n +:+ ": version " +:+ v +:+ " is already approved"
  | LApprove n v dry =>
      n +:+ ": approve version " +:+ v +:+ (if dry then " (dry run)" else "")
  | LAuthFailed s => "authorization failed: " +:+ s
  | LApiError s => "unexpected openshift api error: " +:+ s
  | LConfigDir s => "unable to open config directory: " +:+ s
  end.

(** [sub in text] on strings. *)
Fixpoint contains (sub text : string) : bool :=
  String.prefix sub text ||
  match text with
  | EmptyString => false
  | String _ text' => contains sub text'
  end.

(** ** The environment and the state

    [Env] is what the outside world answers: the entries of [config_dir]
    in the order the directory scan gives them, the Subscriptions of the
    cluster, which API calls fail and with what, how long each call takes,
    and the exception, if any, that building the API client raises.  [State] is what changes as the program runs: the clock, the
    events the watcher threads put on the queue (each with the time of its
    [put], in queue order), the InstallPlans of the cluster, and the calls
    and log records the program has emitted, oldest first. *)

Record Env : Type := {
  e_dir : list DirEntry;
  e_subs : gmap (string * string) Subscription;
  e_fault : ApiCall → option exc;
  e_latency : ApiCall → Z;
  e_connect : option exc;
}.

Record State : Type := {
  st_now : Z;
  st_queue : list (Z * Event);
  st_plans : gmap (string * string) PlanSpec;
  st_patches : list (InstallPlan * string);
  st_log : list (level * LogMsg);
}.

Definition set_clock (t : Z) (q : list (Z * Event)) (st : State) : State :=
  {| st_now := t; st_queue := q; st_plans := st_plans st;
     st_patches := st_patches st; st_log := st_log st |}.

Definition set_plans (ps : gmap (string * string) PlanSpec) (st : State) : State :=
  {| st_now := st_now st; st_queue := st_queue st; st_plans := ps;
     st_patches := st_patches st; st_log := st_log st |}.

Definition add_patch (c : InstallPlan * string) (st : State) : State :=
  {| st_now := st_now st; st_queue := st_queue st; st_plans := st_plans st;
     st_patches := st_patches st ++ [c]; st_log := st_log st |}.

Definition add_log (r : level * LogMsg) (st : State) : State :=
  {| st_now := st_now st; st_queue := st_queue st; st_plans := st_plans st;
     st_patches := st_patches st; st_log := st_log st ++ [r] |}.

(** ** The monad: state passing with exceptions *)

Definition M (A : Type) : Type := State → (exc + A) * State.

Definition ret {A} (a : A) : M A := λ st, (inr a, st).
Definition raise {A} (e : exc) : M A := λ st, (inl e, st).
Definition bind {A B} (m : M A) (k : A → M B) : M B :=
  λ st, match m st with
        | (inr a, st') => k a st'
        | (inl e, st') => (inl e, st')
        end.

#[global] Instance M_ret : MRet M := @ret.
#[global] Instance M_bind : MBind M := λ A B k m, bind m k.

(** [try: m except <classes>: handler] *)
Definition try_except {A} (m : M A) (classes : exc → bool) (handler : exc → M A) : M A :=
  λ st, match m st with
        | (inl e, st') => if classes e then handler e st' else (inl e, st')
        | r => r
        end.

(** [LOG.debug], [LOG.info], [LOG.warning], [LOG.error] *)
Definition LOG (l : level) (m : LogMsg) : M unit :=
  λ st, (inr tt, add_log (l, m) st).

(** [time.time()] *)
Definition time_time : M Z := λ st, (inr (st_now st), st).

(** Lifting of a value that is either there or raises. *)
Definition of_sum {A} (r : exc + A) : M A :=
  match r with inl e => raise e | inr a => ret a end.

(** [d[k]] on the mapping loaded from YAML *)
Definition getitem (d : gmap string string) (k : string) : M string :=
  match d !! k with
  | Some v => ret v
  | None => raise (OtherError "KeyError" k)
  end.

(** [l[0]] *)
Definition index0 (l : list string) : M string :=
  match l with
  | x :: _ => ret x
  | [] => raise (OtherError "IndexError" "list index out of range")
  end.

(** ** The cluster API

    Every call takes the time the environment says and fails when the
    environment says so.  A [get] of an object that does not exist raises
    [NotFoundError]; a [patch] is recorded when it is issued, and when it
    succeeds the cluster holds the patched object. *)

Section Approver.

Context (config : Config) (env : Env).

Definition summary_404 : string := "404 Reason: Not Found".

Definition api_call (c : ApiCall) : M unit :=
  λ st,
    let st' := set_clock (st_now st + e_latency env c) (st_queue st) st in
    match e_fault env c with
    | Some e => (inl e, st')
    | None => (inr tt, st')
    end.

(** [self.subscriptions.get(name=..., namespace=...)] *)
Definition subscriptions_get (name namespace : string) : M Subscription :=
  api_call (GetSubscription name namespace);;
  match e_subs env !! (name, namespace) with
  | Some sub => mret sub
  | None => raise (NotFoundError summary_404)
  end.

(** The InstallPlans the cluster holds, read and written. *)
Definition cluster_plans : M (gmap (string * string) PlanSpec) :=
  λ st, (inr (st_plans st), st).
Definition cluster_store (k : string * string) (ps : PlanSpec) : M unit :=
  λ st, (inr tt, set_plans (<[k := ps]> (st_plans st)) st).
Definition record_patch (body : InstallPlan) (namespace : string) : M unit :=
  λ st, (inr tt, add_patch (body, namespace) st).

(** [self.installplans.get(name=..., namespace=...)] *)
Definition installplans_get (name namespace : string) : M InstallPlan :=
  api_call (GetInstallPlan name namespace);;
  plans ← cluster_plans;
  match plans !! (name, namespace) with
  | Some ps => mret {| metadata_name := name; ip_spec := ps |}
  | None => raise (NotFoundError summary_404)
  end.

(** [self.installplans.patch(body=..., namespace=...)] *)
Definition installplans_patch (body : InstallPlan) (namespace : string) : M unit :=
  record_patch body namespace;;
  api_call (PatchInstallPlan body namespace);;
  plans ← cluster_plans;
  match plans !! (metadata_name body, namespace) with
  | Some _ => cluster_store (metadata_name body, namespace) (ip_spec body)
  | None => raise (NotFoundError summary_404)
  end.

(** ** [Approver.process_update_spec] (main.py, lines 151-197) *)

(** [sub.status.installPlanRef.name] *)
Definition installPlanRef_name (sub : Subscription) : M string :=
  match installPlanRef sub with
  | Some n => mret n
  | None => raise (OtherError "AttributeError" "'NoneType' object has no attribute 'name'")
  end.

Definition process_update_spec (specfile : DirEntry) : M unit :=
  spec ← of_sum (de_load specfile);
  name ← getitem spec "name";
  namespace ← getitem spec "namespace";
  LOG INFO (LProcessing name namespace);;
  (* look up named subscription *)
  sub ← subscriptions_get name namespace;
  (* get current installplan *)
  plan_name ← installPlanRef_name sub;
  LOG DEBUG (LGotPlan name plan_name);;
  plan ← installplans_get plan_name namespace;
  have ← index0 (clusterServiceVersionNames (ip_spec plan));
  (* check if installplan matches request version *)
  want ← getitem spec "version";
  if negb (String.eqb have want) then
    LOG WARNING (LInvalidVersion name have want)
  else
    (* check if installplan was previously approved *)
    if approved (ip_spec plan) then
      LOG INFO (LAlreadyApproved name want)
    else
      (* approve the plan *)
      LOG WARNING (LApprove name want (negb (approve_updates config)));;
      if approve_updates config then
        installplans_patch (set_approved plan) namespace
      else mret tt.

(** ** [Approver.process_update_specs] (main.py, lines 134-149) *)

(** [name] matches the pattern ['*' + ext]: it ends in [ext]. *)
Definition ends_with (ext name : string) : bool :=
  String.prefix (String.rev ext) (String.rev name).

(** [config.config_dir.glob('*' + ext)]: the entries of the directory
    itself whose name matches, files and directories alike. *)
Definition glob (ext : string) : list DirEntry :=
  List.filter (λ e, ends_with ext (de_name e)) (e_dir env).

Definition is_NotFoundError (e : exc) : bool :=
  match e with NotFoundError _ => true | _ => false end.

(** The body of the [for specfile in chain(...)] loop, over the files that
    are left, with the running [count]. *)
Fixpoint for_specfiles (files : list DirEntry) (count : nat) : M nat :=
  match files with
  | [] => mret count
  | specfile :: files =>
      if de_is_file specfile then
        let count := S count in
        try_except (process_update_spec specfile) is_NotFoundError
          (λ err, LOG ERROR (LUnableToFind (summary err)));;
        for_specfiles files count
      else for_specfiles files count
  end.

Definition process_update_specs : M nat :=
  for_specfiles (glob ".yml" ++ glob ".yaml") 0.

(** ** [Approver.events] (main.py, lines 89-103) *)

(** [self.q.get(timeout=...)] of [queue.Queue]: a negative timeout is a
    [ValueError]; an event that is on the queue, or is put on it before the
    timeout has passed, is returned at the time it is there; otherwise
    [queue.Empty] is raised when the timeout has passed. *)
Definition q_get (timeout : Z) : M Event :=
  λ st,
    if (timeout <? 0)%Z then
      (inl (OtherError "ValueError" "'timeout' must be a non-negative number"), st)
    else
      match st_queue st with
      | (t_put, event) :: rest =>
          if (t_put <=? st_now st + timeout)%Z then
            (inr event, set_clock (Z.max (st_now st) t_put) rest st)
          else (inl QueueEmpty, set_clock (st_now st + timeout) (st_queue st) st)
      | [] => (inl QueueEmpty, set_clock (st_now st + timeout) [] st)
      end.

Definition is_QueueEmpty (e : exc) : bool :=
  match e with QueueEmpty => true | _ => false end.

(** One turn of the [while True] loop of the generator: the event of the
    next [yield]. *)
Definition events_next : M Event :=
  try_except (q_get (max_interval config)) is_QueueEmpty (λ _, mret Timeout).

(** ** [Approver.loop] (main.py, lines 105-132) *)

(** The watcher threads only put events on the queue; what they put, and
    when, is [st_queue]. *)
Definition start_watchers : M unit := mret tt.

(** The body of [for event in self.events()], from [t_last] to the next
    [t_last]. *)
Definition loop_body (event : Event) (t_last : Z) : M Z :=
  t_start ← time_time;
  let t_delta := (t_start - t_last)%Z in
  (* Ignore triggers if we last checked less than min_interval seconds ago. *)
  if (t_delta <? min_interval config)%Z then
    LOG DEBUG (LIgnoring (event_kind event) t_last t_start t_delta);;
    mret t_last
  else
    LOG INFO (LTriggered (event_kind event));;
    sub_count ← process_update_specs;
    t_end ← time_time;
    let t_last := t_start in
    let t_delta := (t_end - t_start)%Z in
    LOG INFO (LFinished sub_count t_delta);;
    mret t_last.

(** What an observer sees of one turn of the loop: the event, when it was
    put on the queue (a synthesized timeout never was), [t_last] and
    [t_start] when it was received, whether a reconciliation pass was
    started for it, and the time when the turn was over. *)
Record Iteration : Type := {
  it_event : Event;
  it_put : option Z;
  it_last : Z;
  it_start : Z;
  it_admitted : bool;
  it_end : Z;
}.

(** The time of the [put] of the event that [q_get] is about to return. *)
Definition next_put (timeout : Z) (st : State) : option Z :=
  match st_queue st with
  | (t_put, _) :: _ => if (t_put <=? st_now st + timeout)%Z then Some t_put else None
  | [] => None
  end.

(** The loop never returns: after [fuel] turns it is still [Running], unless
    an exception has ended it.  Beside the outcome and the state,
    [loop_from] gives what was seen of each turn, in order. *)
Inductive Outcome : Type :=
| Running (t_last : Z)
| Raised (e : exc).

Fixpoint loop_from (fuel : nat) (t_last : Z) (st : State)
  : Outcome * list Iteration * State :=
  match fuel with
  | O => (Running t_last, [], st)
  | S fuel =>
      match events_next st with
      | (inl e, st1) => (Raised e, [], st1)
      | (inr event, st1) =>
          let t_start := st_now st1 in
          let admitted := negb (t_start - t_last <? min_interval config)%Z in
          let seen t_end :=
            {| it_event := event; it_put := next_put (max_interval config) st;
               it_last := t_last; it_start := t_start;
               it_admitted := admitted; it_end := t_end |} in
          match loop_body event t_last st1 with
          | (inl e, st2) => (Raised e, [seen (st_now st2)], st2)
          | (inr t_last', st2) =>
              let '(out, its, st3) := loop_from fuel t_last' st2 in
              (out, seen (st_now st2) :: its, st3)
          end
      end
  end.

Definition loop (fuel : nat) (st : State) : Outcome * list Iteration * State :=
  match start_watchers st with
  | (inl e, st') => (Raised e, [], st')
  | (inr _, st') => let t_last := 0%Z in loop_from fuel t_last st'
  end.

(** ** [main] (main.py, lines 220-231) *)

(** [Approver()]: building the API client may raise. *)
Definition Approver_init : M unit :=
  match e_connect env with
  | Some e => raise e
  | None => mret tt
  end.

(** How [main] ends: the loop is still running when the fuel is spent, or
    [main] has returned after logging the error, or the exception is none
    of those it catches and leaves [main]. *)
Inductive MainResult : Type :=
| StillRunning
| Returned
| Uncaught (e : exc).

Definition is_UnauthorizedError (e : exc) : bool :=
  match e with UnauthorizedError _ => true | _ => false end.

Definition is_FileNotFoundError (e : exc) : bool :=
  match e with FileNotFoundError _ => true | _ => false end.

(** The [except] clauses of [main], tried in order. *)
Definition main_except (err : exc) (st : State) : MainResult * State :=
  if is_UnauthorizedError err then
    (Returned, add_log (ERROR, LAuthFailed (summary err)) st)
  else if is_DynamicApiError err then
    (Returned, add_log (ERROR, LApiError (summary err)) st)
  else if is_FileNotFoundError err then
    (Returned, add_log (ERROR, LConfigDir (summary err)) st)
  else (Uncaught err, st).

Definition main (fuel : nat) (st : State) : MainResult * list Iteration * State :=
  match Approver_init st with
  | (inl err, st') => let '(r, st'') := main_except err st' in (r, [], st'')
  | (inr _, st') =>
      match loop fuel st' with
      | (Running _, its, st'') => (StillRunning, its, st'')
      | (Raised err, its, st'') =>
          let '(r, st3) := main_except err st'' in (r, its, st3)
      end
  end.

End Approver.

(** ** The scenarios of the test suite

    The fixtures of tests/conftest.py and the configuration the tests set:
    [min_interval = 1], [max_interval = 2], [approve_updates = True]. *)

Module Fixtures.

Definition test_config : Config :=
  {| approve_updates := true; max_interval := 2; min_interval := 1 |}.

Definition updateconfig : gmap string string :=
  {[ "name" := "test-operator"; "namespace" := "test-ns";
     "version" := "test-operator-1.0" ]}.

Definition subscription : Subscription :=
  {| installPlanRef := Some "test-operator" |}.

Definition installplan : PlanSpec :=
  {| approved := false;
     clusterServiceVersionNames := ["test-operator-1.0"];
     other_fields := [] |}.

Definition specfile (name : string) : DirEntry :=
  {| de_name := name; de_is_file := true; de_load := inr updateconfig |}.

Definition cluster : Env :=
  {| e_dir := [specfile "updateconfig.yaml"];
     e_subs := {[ ("test-operator", "test-ns") := subscription ]};
     e_fault := λ _, None;
     e_latency := λ _, 0%Z;
     e_connect := None |}.

(** Scenario B: the plan is already approved. *)
Definition installplan_approved : PlanSpec :=
  {| approved := true;
     clusterServiceVersionNames := ["test-operator-1.0"];
     other_fields := [] |}.

(** Scenario C: the plan is for another version. *)
Definition installplan_wrong_version : PlanSpec :=
  {| approved := false;
     clusterServiceVersionNames := ["test-operator-2.0"];
     other_fields := [] |}.

(** A plan for another version that is already approved. *)
Definition installplan_approved_wrong_version : PlanSpec :=
  {| approved := true;
     clusterServiceVersionNames := ["test-operator-2.0"];
     other_fields := [] |}.

(** The InstallPlan object the cluster returns for a stored plan. *)
Definition fetched (plan : PlanSpec) : InstallPlan :=
  {| metadata_name := "test-operator"; ip_spec := plan |}.

(** The state at time [now] with the given events waiting and the given
    InstallPlan in the cluster. *)
Definition start (now : Z) (q : list (Z * Event)) (plan : PlanSpec) : State :=
  {| st_now := now; st_queue := q;
     st_plans := {[ ("test-operator", "test-ns") := plan ]};
     st_patches := []; st_log := [] |}.


(** The Subscription is there, the InstallPlan it names is not. *)
Definition no_plans (now : Z) : State :=
  {| st_now := now; st_queue := []; st_plans := ∅;
     st_patches := []; st_log := [] |}.

(** Scenario E: one [.yml], one [.yaml] and one [.gz] file. *)
Definition cluster_three_files : Env :=
  {| e_dir := [specfile "testfile.yml"; specfile "testfile.yaml";
               specfile "testfile.gz"];
     e_subs := {[ ("test-operator", "test-ns") := subscription ]};
     e_fault := λ _, None;
     e_latency := λ _, 0%Z;
     e_connect := None |}.

(** Three filesystem events, 5 and 7 seconds apart. *)
Definition burst_queue : list (Z * Event) :=
  [(100, FsEvent "a"); (105, FsEvent "b"); (112, FsEvent "c")]%Z.

(** Two filesystem events 5 seconds apart. *)
Definition two_events : list (Z * Event) :=
  [(100, FsEvent "a"); (105, FsEvent "b")]%Z.

(** A cluster whose Subscription lookup takes 15 seconds. *)
Definition slow_cluster : Env :=
  {| e_dir := [specfile "updateconfig.yaml"];
     e_subs := {[ ("test-operator", "test-ns") := subscription ]};
     e_fault := λ _, None;
     e_latency := λ c, match c with GetSubscription _ _ => 15%Z | _ => 0%Z end;
     e_connect := None |}.

(** A cluster whose Subscription lookup fails with [err]. *)
Definition failing_cluster (err : exc) : Env :=
  {| e_dir := [specfile "updateconfig.yaml"];
     e_subs := {[ ("test-operator", "test-ns") := subscription ]};
     e_fault := λ c, match c with GetSubscription _ _ => Some err | _ => None end;
     e_latency := λ _, 0%Z;
     e_connect := None |}.


(** Two specs, neither of which has its Subscription. *)
Definition cluster_two_missing : Env :=
  {| e_dir := [specfile "a.yml"; specfile "b.yaml"];
     e_subs := ∅;
     e_fault := λ _, None;
     e_latency := λ _, 0%Z;
     e_connect := None |}.

End Fixtures.
(** ** Observations *)

(** The patch calls issued while [m] runs from [st]. *)
Definition patches_issued {A} (m : M A) (st : State) : list (InstallPlan * string) :=
  drop (length (st_patches st)) (st_patches (m st).2).

(** The log records written while [m] runs from [st]. *)
Definition logged {A} (m : M A) (st : State) : list (level * LogMsg) :=
  drop (length (st_log st)) (st_log (m st).2).

(** Some record of the log has a message in which [text] occurs. *)
Definition log_mentions (text : string) (log : list (level * LogMsg)) : bool :=
  existsb (λ r, contains text (render r.2)) log.

(** [process_update_spec] reaches its decision (line 173) for [specfile]
    with these values: the file loads, has the three keys, and both objects
    are fetched; [plan] is the InstallPlan as fetched. *)
Definition at_decision (env : Env) (specfile : DirEntry) (st : State)
    (name namespace want : string) (plan : InstallPlan) : Prop :=
  ∃ spec sub,
    de_load specfile = inr spec ∧
    spec !! "name" = Some name ∧
    spec !! "namespace" = Some namespace ∧
    spec !! "version" = Some want ∧
    e_fault env (GetSubscription name namespace) = None ∧
    e_subs env !! (name, namespace) = Some sub ∧
    installPlanRef sub = Some (metadata_name plan) ∧
    e_fault env (GetInstallPlan (metadata_name plan) namespace) = None ∧
    st_plans st !! (metadata_name plan, namespace) = Some (ip_spec plan).

(** The update specifications of a pass: the regular files among what the
    two globs give, in the order the pass meets them. *)
Definition spec_files (env : Env) : list DirEntry :=
  List.filter de_is_file (glob env ".yml" ++ glob env ".yaml").

(** A regular file whose name matches [*.yml] or [*.yaml]. *)
Definition is_spec_file (e : DirEntry) : bool :=
  de_is_file e && (ends_with ".yml" (de_name e) || ends_with ".yaml" (de_name e)).

(** The reconciliation passes of a trace: the turns that started one. *)
Definition passes (its : list Iteration) : list Iteration :=
  List.filter it_admitted its.

(** Every event of the burst is received less than [d] after every other. *)
Definition within_window (d : Z) (its : list Iteration) : Prop :=
  ∀ a b, a ∈ its → b ∈ its → (it_start b - it_start a < d)%Z.

(** Each event of the burst is received less than [d] after the one before
    it. *)
Fixpoint closer_together (d : Z) (its : list Iteration) : Prop :=
  match its with
  | a :: rest =>
      match rest with
      | b :: _ => (it_start b - it_start a < d)%Z
      | [] => True
      end ∧ closer_together d rest
  | [] => True
  end.

(** The burst property as C2 states it, for a reading [closer] of "closer
    together than [min_interval]": in every burst of a run of the loop at
    most one pass runs, and the first event of the burst is its trigger. *)
Definition one_pass_per_burst (closer : Z → list Iteration → Prop) : Prop :=
  ∀ config env fuel st pre burst post,
    (loop config env fuel st).1.2 = pre ++ burst ++ post →
    closer (min_interval config) burst →
    length (passes burst) ≤ 1 ∧
    ∀ it, it ∈ passes burst → head burst = Some it.

(** The event of turn [b] was put on the queue while the pass of turn [a]
    was running. *)
Definition queued_during (a b : Iteration) : Prop :=
  ∃ t_put, it_put b = Some t_put ∧ (it_start a ≤ t_put ≤ it_end a)%Z.

(** The property C9 states: an event queued during a pass does not trigger
    the next pass. *)
Definition no_self_retrigger : Prop :=
  ∀ config env fuel st pre a b post,
    (loop config env fuel st).1.2 = pre ++ a :: b :: post →
    it_admitted a = true →
    queued_during a b →
    it_admitted b = false.

(** Nothing is put on the queue until [timeout] has passed. *)
Definition quiet_for (timeout : Z) (st : State) : Prop :=
  match st_queue st with
  | (t_put, _) :: _ => (st_now st + timeout < t_put)%Z
  | [] => True
  end.


(** The debounce gate along a trace: each turn sees the [t_last] that the
    turn before it left, receives its event no earlier than that turn
    ended, and starts a pass exactly when the event is received [d] or more
    after [t_last]. *)
Fixpoint gate_chain (d t_last now : Z) (its : list Iteration) : Prop :=
  match its with
  | [] => True
  | it :: rest =>
      it_last it = t_last ∧
      (now ≤ it_start it)%Z ∧
      it_admitted it = negb (it_start it - t_last <? d)%Z ∧
      gate_chain d (if it_admitted it then it_start it else t_last) (it_end it) rest
  end.

(** ** What a run may change *)

(** An InstallPlan under one key, before and after: it is neither created
    nor deleted, its [clusterServiceVersionNames] and other fields are
    kept, and an approval is never taken back. *)
Definition plan_kept (old new : option PlanSpec) : Prop :=
  match old, new with
  | None, None => True
  | Some p, Some p' =>
      clusterServiceVersionNames p' = clusterServiceVersionNames p ∧
      other_fields p' = other_fields p ∧
      (approved p = true → approved p' = true)
  | _, _ => False
  end.

Definition plans_monotone (old new : gmap (string * string) PlanSpec) : Prop :=
  ∀ k, plan_kept (old !! k) (new !! k).

(** From [st] to [st']: events are only taken from the front of the queue,
    the log and the list of patch calls only grow, every new patch call
    carries an approved plan, the plans of the cluster change only as
    [plans_monotone] allows, and a dry run changes neither the plans nor
    the patch calls. *)
Definition evolves (config : Config) (st st' : State) : Prop :=
  (∃ taken, st_queue st = taken ++ st_queue st') ∧
  (∃ new, st_log st' = st_log st ++ new) ∧
  (∃ new, st_patches st' = st_patches st ++ new ∧
          Forall (λ c, approved (ip_spec c.1) = true) new) ∧
  plans_monotone (st_plans st) (st_plans st') ∧
  (approve_updates config = false →
   st_plans st' = st_plans st ∧ st_patches st' = st_patches st).

(** The events a run has taken from the queue, with the time of their
    [put], in the order of the turns that received them. *)
Definition dequeued (its : list Iteration) : list (Z * Event) :=
  omap (λ it, (λ t_put, (t_put, it_event it)) <$> it_put it) its.

(** ** The watcher threads (main.py, lines 32-54)

    [watch_stream] is what [watch(config.config_dir)], or the watch on the
    Subscriptions, yields: each event with the time at which it is seen.
    A watcher puts one tagged event on the queue for each.  The queue holds
    the puts of both threads in some interleaving. *)

(** [FileWatcher.run] *)
Definition FileWatcher_run (watch_stream : list (Z * string)) : list (Z * Event) :=
  (λ x, (x.1, FsEvent x.2)) <$> watch_stream.

(** [SubscriptionWatcher.run] *)
Definition SubscriptionWatcher_run (watch_stream : list (Z * string)) : list (Z * Event) :=
  (λ x, (x.1, SubscriptionEvent x.2)) <$> watch_stream.

Inductive interleaving {A} : list A → list A → list A → Prop :=
| interleaving_nil : interleaving [] [] []
| interleaving_left x l1 l2 l :
    interleaving l1 l2 l → interleaving (x :: l1) l2 (x :: l)
| interleaving_right x l1 l2 l :
    interleaving l1 l2 l → interleaving l1 (x :: l2) (x :: l).

(** ** Further scenarios *)

Module Scenarios.

(** What the two watches yield, and the queue of their puts. *)
Definition fs_stream : list (Z * string) := [(100, "a"); (112, "c")]%Z.
Definition sub_stream : list (Z * string) := [(105, "b")]%Z.
Definition mixed_queue : list (Z * Event) :=
  [(100, FsEvent "a"); (105, SubscriptionEvent "b"); (112, FsEvent "c")]%Z.

(** A spec file without the [name] key. *)
Definition nameless_file : DirEntry :=
  {| de_name := "broken.yaml"; de_is_file := true;
     de_load := inr {[ "namespace" := "test-ns"; "version" := "test-operator-1.0" ]} |}.

Definition cluster_with (dir : list DirEntry) : Env :=
  {| e_dir := dir;
     e_subs := {[ ("test-operator", "test-ns") := Fixtures.subscription ]};
     e_fault := λ _, None;
     e_latency := λ _, 0%Z;
     e_connect := None |}.

(** A cluster whose Subscription has no install plan yet. *)
Definition cluster_without_ref : Env :=
  {| e_dir := [Fixtures.specfile "updateconfig.yaml"];
     e_subs := {[ ("test-operator", "test-ns") := {| installPlanRef := None |} ]};
     e_fault := λ _, None;
     e_latency := λ c, match c with GetSubscription _ _ => 3%Z | _ => 0%Z end;
     e_connect := None |}.

(** A cluster that refuses every patch with [err]. *)
Definition cluster_patch_fails (err : exc) : Env :=
  {| e_dir := [Fixtures.specfile "updateconfig.yaml"];
     e_subs := {[ ("test-operator", "test-ns") := Fixtures.subscription ]};
     e_fault := λ c, match c with PatchInstallPlan _ _ => Some err | _ => None end;
     e_latency := λ _, 0%Z;
     e_connect := None |}.

(** Scenario E with a spec of its own in each file: one [.yml], one
    [.yaml] and one [.gz] file. *)
Definition named_specfile (file operator : string) : DirEntry :=
  {| de_name := file; de_is_file := true;
     de_load := inr {[ "name" := operator; "namespace" := "test-ns";
                       "version" := "test-operator-1.0" ]} |}.

Definition three_named_files : Env :=
  cluster_with [ named_specfile "testfile.gz" "operator-gz";
                 named_specfile "testfile.yaml" "operator-yaml";
                 named_specfile "testfile.yml" "operator-yml" ].


(** [IPO_MAX_INTERVAL=-1] *)
Definition negative_max_interval : Config :=
  {| approve_updates := false; max_interval := -1; min_interval := 10 |}.

End Scenarios.

(** ** What a turn of the loop leaves *)

(** The outcome and the state of a turn that runs a reconciliation pass
    for [event], received in [st1] (main.py, lines 123-132): the trigger is
    logged, [process_update_specs] runs, and when it returns [t_last] is
    [t_start] and the count and the duration of the pass are logged; when it
    raises, the loop ends. *)
Definition turn_with_pass (config : Config) (env : Env) (event : Event)
    (st1 : State) : Outcome * State :=
  match process_update_specs config env
          (add_log (INFO, LTriggered (event_kind event)) st1) with
  | (inr sub_count, st2) =>
      (Running (st_now st1),
       add_log (INFO, LFinished sub_count (st_now st2 - st_now st1)) st2)
  | (inl e, st2) => (Raised e, st2)
  end.

(** The outcome and the state of a turn that ignores [event] (lines
    115-121): one debug record, no pass, [t_last] kept. *)
Definition turn_ignored (event : Event) (t_last : Z) (st1 : State) : Outcome * State :=
  (Running t_last,
   add_log (DEBUG, LIgnoring (event_kind event) t_last (st_now st1)
                     (st_now st1 - t_last)) st1).

(** The name and namespace of a 'processing subscription ...' record. *)
Definition is_processing (r : level * LogMsg) : option (string * string) :=
  match r.2 with
  | LProcessing name namespace => Some (name, namespace)
  | _ => None
  end.

(** What [process_update_spec] logs first for [specfile] (line 157): the
    name and namespace of its spec, when the file loads and has both
    keys. *)
Definition announced (specfile : DirEntry) : option (string * string) :=
  match de_load specfile with
  | inr spec =>
      match spec !! "name", spec !! "namespace" with
      | Some name, Some namespace => Some (name, namespace)
      | _, _ => None
      end
  | inl _ => None
  end.

(** Successive values that are [d] or more apart, the first of them [d] or
    more after [t]. *)
Fixpoint spaced_from (d t : Z) (l : list Z) : Prop :=
  match l with
  | [] => True
  | x :: l' => (d ≤ x - t)%Z ∧ spaced_from d x l'
  end.

(** Running [m] never sets the clock back. *)
Definition never_back {A} (m : M A) : Prop :=
  ∀ st, (st_now st ≤ st_now (m st).2)%Z.

(** * Proofs *)

Ltac red_m :=
  cbv beta iota zeta delta
    [mbind M_bind bind mret M_ret ret raise of_sum getitem index0 try_except
     LOG time_time api_call cluster_plans cluster_store record_patch
     subscriptions_get installplans_get installplans_patch installPlanRef_name];
  cbn [fst snd negb st_patches st_plans st_log st_now st_queue ip_spec
       metadata_name add_log add_patch set_clock set_plans].

(** Run the monadic code as far as the equations in the context decide
    its branches. *)
Ltac step :=
  red_m;
  repeat match goal with
         | H : ?x = _ |- context [?x] => progress rewrite H; red_m
         end.

Ltac no_decision :=
  intros (?&?&?&?&(?&?&?&?&?&?&?&?&?&?&?)&?&?&?); simplify_eq;
  repeat match goal with
         | H : ?x = _, H' : context [?x] |- _ => progress rewrite H in H'
         end;
  cbn [head] in *; simplify_eq.

Lemma drop_length_app {A} (l k : list A) : drop (length l) (l ++ k) = k.
Proof. by rewrite drop_app_length. Qed.

Lemma drop_length_self {A} (l : list A) : drop (length l) l = [].
Proof. by rewrite drop_all. Qed.

(** *** The decision of [process_update_spec] *)

Lemma patch_iff config env specfile st :
  patches_issued (process_update_spec config env specfile) st ≠ [] ↔
  ∃ name namespace want plan,
    at_decision env specfile st name namespace want plan ∧
    head (clusterServiceVersionNames (ip_spec plan)) = Some want ∧
    approved (ip_spec plan) = false ∧
    approve_updates config = true.
Proof.
  unfold patches_issued, at_decision, process_update_spec.
  destruct (de_load specfile) as [e|spec] eqn:Hload.
  { step. rewrite drop_length_self. split; [done|no_decision]. }
  destruct (spec !! "name") as [name|] eqn:Hname.
  2:{ step. rewrite drop_length_self. split; [done|no_decision]. }
  destruct (spec !! "namespace") as [ns|] eqn:Hns.
  2:{ step. rewrite drop_length_self. split; [done|no_decision]. }
  destruct (e_fault env (GetSubscription name ns)) as [e|] eqn:Hf1.
  { step. rewrite drop_length_self. split; [done|no_decision]. }
  destruct (e_subs env !! (name, ns)) as [sub|] eqn:Hsub.
  2:{ step. rewrite drop_length_self. split; [done|no_decision]. }
  destruct (installPlanRef sub) as [pn|] eqn:Href.
  2:{ step. rewrite drop_length_self. split; [done|no_decision]. }
  destruct (e_fault env (GetInstallPlan pn ns)) as [e|] eqn:Hf2.
  { step. rewrite drop_length_self. split; [done|no_decision]. }
  destruct (st_plans st !! (pn, ns)) as [ps|] eqn:Hps.
  2:{ step. rewrite drop_length_self. split; [done|no_decision]. }
  destruct (clusterServiceVersionNames ps) as [|have csvs] eqn:Hcsv.
  { step. rewrite drop_length_self. split; [done|no_decision]. }
  destruct (spec !! "version") as [want|] eqn:Hwant.
  2:{ step. rewrite drop_length_self. split; [done|no_decision]. }
  destruct (String.eqb have want) eqn:Heq.
  2:{ step. rewrite drop_length_self. split; [done|].
      apply String.eqb_neq in Heq. no_decision. }
  pose proof Heq as Hhave. apply String.eqb_eq in Hhave. subst have.
  destruct (approved ps) eqn:Happr.
  { step. rewrite drop_length_self. split; [done|no_decision]. }
  destruct (approve_updates config) eqn:Hmode.
  2:{ step. rewrite drop_length_self. split; [done|no_decision]. }
  split.
  - intros _. exists name, ns, want, {| metadata_name := pn; ip_spec := ps |}.
    cbn [metadata_name ip_spec]. rewrite Hcsv. split_and!; try done.
    exists spec, sub. split_and!; done.
  - intros _. step.
    destruct (e_fault env (PatchInstallPlan _ ns)); step; [by rewrite drop_length_app|].
    cbn [set_approved metadata_name]. step. by rewrite drop_length_app.
Qed.

Lemma not_nil_inv {A} (l : list A) : ¬ l ≠ [] → l = [].
Proof. destruct l; [done|]. intros H. by destruct H. Qed.

(** C1.  A patch call is issued by [process_update_spec] if and only if,
    at the decision, the first name of [clusterServiceVersionNames] is the
    version of the spec, the plan is not approved, and [approve_updates] is
    on.  In particular a version that does not match issues no patch
    whatever [approve_updates] is, and a dry run issues no patch at all. *)
Theorem patch_iff_version_unapproved_approve_mode config env specfile st :
  (patches_issued (process_update_spec config env specfile) st ≠ [] ↔
   ∃ name namespace want plan,
     at_decision env specfile st name namespace want plan ∧
     head (clusterServiceVersionNames (ip_spec plan)) = Some want ∧
     approved (ip_spec plan) = false ∧
     approve_updates config = true) ∧
  (∀ name namespace want plan,
     at_decision env specfile st name namespace want plan →
     head (clusterServiceVersionNames (ip_spec plan)) ≠ Some want →
     patches_issued (process_update_spec config env specfile) st = []) ∧
  (approve_updates config = false →
   patches_issued (process_update_spec config env specfile) st = []).
Proof.
  split_and!.
  - apply patch_iff.
  - intros name ns want plan (spec&sub&?&?&?&?&?&?&?&?&?) Hne.
    apply not_nil_inv. rewrite patch_iff.
    intros (?&?&?&plan'&(?&?&?&?&?&?&?&?&?&?&?)&?&?&?).
    assert (ip_spec plan' = ip_spec plan) as Hsame by congruence.
    congruence.
  - intros Hdry. apply not_nil_inv. rewrite patch_iff.
    intros (?&?&?&?&?&?&?&?). congruence.
Qed.

(** *** Substrings of log messages *)

Lemma contains_unfold sub text :
  contains sub text =
  String.prefix sub text ||
  match text with EmptyString => false | String _ t => contains sub t end.
Proof. by destruct text. Qed.

Lemma contains_app_r sub pre text :
  contains sub text = true → contains sub (pre +:+ text) = true.
Proof.
  intros H. induction pre as [|a pre IH]; [done|].
  simpl. rewrite IH. apply orb_true_r.
Qed.

(** *** The three ways past the decision *)

Section Decision.

Context (config : Config) (env : Env) (specfile : DirEntry) (st : State).
Context (name namespace want : string) (plan : InstallPlan).
Hypothesis Hdec : at_decision env specfile st name namespace want plan.

Let run := process_update_spec config env specfile st.

(** The state in which the decision is taken: two calls later, two log
    records more. *)
Let st_decision :=
  add_log (DEBUG, LGotPlan name (metadata_name plan))
    (set_clock
       (st_now st + e_latency env (GetSubscription name namespace)
        + e_latency env (GetInstallPlan (metadata_name plan) namespace))%Z
       (st_queue st)
       (add_log (INFO, LProcessing name namespace) st)).

Lemma decision_already_approved :
  head (clusterServiceVersionNames (ip_spec plan)) = Some want →
  approved (ip_spec plan) = true →
  run = (inr (), add_log (INFO, LAlreadyApproved name want) st_decision).
Proof using Hdec.
  intros Hhead Happr. subst run st_decision. unfold process_update_spec.
  destruct Hdec as (spec&sub&?&?&?&?&?&?&?&?&?).
  destruct plan as [pn ps]; cbn [metadata_name ip_spec] in *.
  destruct (clusterServiceVersionNames ps) as [|have csvs] eqn:Hcsv; simplify_eq/=.
  pose proof (String.eqb_refl want). step. done.
Qed.

Lemma decision_dry_run :
  head (clusterServiceVersionNames (ip_spec plan)) = Some want →
  approved (ip_spec plan) = false →
  approve_updates config = false →
  run = (inr (), add_log (WARNING, LApprove name want true) st_decision).
Proof using Hdec.
  intros Hhead Happr Hmode. subst run st_decision. unfold process_update_spec.
  destruct Hdec as (spec&sub&?&?&?&?&?&?&?&?&?).
  destruct plan as [pn ps]; cbn [metadata_name ip_spec] in *.
  destruct (clusterServiceVersionNames ps) as [|have csvs] eqn:Hcsv; simplify_eq/=.
  pose proof (String.eqb_refl want). step. done.
Qed.

Lemma decision_approve :
  head (clusterServiceVersionNames (ip_spec plan)) = Some want →
  approved (ip_spec plan) = false →
  approve_updates config = true →
  run =
  installplans_patch env (set_approved plan) namespace
    (add_log (WARNING, LApprove name want false) st_decision).
Proof using Hdec.
  intros Hhead Happr Hmode. subst run st_decision. unfold process_update_spec.
  destruct Hdec as (spec&sub&?&?&?&?&?&?&?&?&?).
  destruct plan as [pn ps]; cbn [metadata_name ip_spec] in *.
  destruct (clusterServiceVersionNames ps) as [|have csvs] eqn:Hcsv; simplify_eq/=.
  pose proof (String.eqb_refl want).
  unfold installplans_patch at 2. step. done.
Qed.

Lemma decision_mismatch have :
  head (clusterServiceVersionNames (ip_spec plan)) = Some have →
  have ≠ want →
  run = (inr (), add_log (WARNING, LInvalidVersion name have want) st_decision).
Proof using Hdec.
  intros Hhead Hne. subst run st_decision. unfold process_update_spec.
  destruct Hdec as (spec&sub&?&?&?&?&?&?&?&?&?).
  destruct plan as [pn ps]; cbn [metadata_name ip_spec] in *.
  destruct (clusterServiceVersionNames ps) as [|have' csvs] eqn:Hcsv; simplify_eq/=.
  apply String.eqb_neq in Hne. step. done.
Qed.

End Decision.

Lemma patch_recorded env body namespace st :
  st_patches (installplans_patch env body namespace st).2
  = st_patches st ++ [(body, namespace)].
Proof.
  unfold installplans_patch. step.
  destruct (e_fault env (PatchInstallPlan body namespace)); step; [done|].
  destruct (st_plans st !! (metadata_name body, namespace)); step; done.
Qed.

Lemma patch_stored env body namespace st old :
  e_fault env (PatchInstallPlan body namespace) = None →
  st_plans st !! (metadata_name body, namespace) = Some old →
  (installplans_patch env body namespace st).1 = inr () ∧
  st_plans (installplans_patch env body namespace st).2
  = <[(metadata_name body, namespace) := ip_spec body]> (st_plans st).
Proof. intros Hf Hold. unfold installplans_patch. step. done. Qed.

(** C5.  When the version matches, the plan is not approved and
    [approve_updates] is on, exactly one patch call is issued; its body is
    the InstallPlan as fetched with [approved] set to true, and its name,
    its [clusterServiceVersionNames] and every other field are those of the
    fetched plan. *)
Theorem approve_issues_one_patch config env specfile st name namespace want plan :
  at_decision env specfile st name namespace want plan →
  head (clusterServiceVersionNames (ip_spec plan)) = Some want →
  approved (ip_spec plan) = false →
  approve_updates config = true →
  ∃ body,
    patches_issued (process_update_spec config env specfile) st = [(body, namespace)] ∧
    approved (ip_spec body) = true ∧
    metadata_name body = metadata_name plan ∧
    clusterServiceVersionNames (ip_spec body) = clusterServiceVersionNames (ip_spec plan) ∧
    other_fields (ip_spec body) = other_fields (ip_spec plan).
Proof.
  intros Hdec Hhead Happr Hmode. exists (set_approved plan). split; [|done].
  unfold patches_issued.
  rewrite (decision_approve _ _ _ _ _ _ _ _ Hdec Hhead Happr Hmode).
  rewrite patch_recorded. cbn [st_patches add_log set_clock].
  apply drop_length_app.
Qed.

Lemma fixture_at_decision now q plan :
  at_decision Fixtures.cluster (Fixtures.specfile "updateconfig.yaml")
    (Fixtures.start now q plan)
    "test-operator" "test-ns" "test-operator-1.0" (Fixtures.fetched plan).
Proof.
  exists Fixtures.updateconfig, Fixtures.subscription.
  split_and!; reflexivity.
Qed.

Lemma patch_iff_version_unapproved_approve_mode_witness :
  patches_issued
    (process_update_spec Fixtures.test_config Fixtures.cluster
       (Fixtures.specfile "updateconfig.yaml"))
    (Fixtures.start 100 [] Fixtures.installplan) ≠ [] ∧
  patches_issued
    (process_update_spec Fixtures.test_config Fixtures.cluster
       (Fixtures.specfile "updateconfig.yaml"))
    (Fixtures.start 100 [] Fixtures.installplan_wrong_version) = [] ∧
  patches_issued
    (process_update_spec default_config Fixtures.cluster
       (Fixtures.specfile "updateconfig.yaml"))
    (Fixtures.start 100 [] Fixtures.installplan) = [].
Proof.
  split_and!.
  - apply (proj1 (patch_iff_version_unapproved_approve_mode Fixtures.test_config
                    Fixtures.cluster (Fixtures.specfile "updateconfig.yaml")
                    (Fixtures.start 100 [] Fixtures.installplan))).
    exists "test-operator", "test-ns", "test-operator-1.0",
      (Fixtures.fetched Fixtures.installplan).
    split; [apply fixture_at_decision|]. split_and!; reflexivity.
  - apply (proj1 (proj2 (patch_iff_version_unapproved_approve_mode
                           Fixtures.test_config Fixtures.cluster
                           (Fixtures.specfile "updateconfig.yaml")
                           (Fixtures.start 100 []
                              Fixtures.installplan_wrong_version)))
             "test-operator" "test-ns" "test-operator-1.0"
             (Fixtures.fetched Fixtures.installplan_wrong_version)).
    + apply fixture_at_decision.
    + vm_compute. discriminate.
  - apply (proj2 (proj2 (patch_iff_version_unapproved_approve_mode default_config
                           Fixtures.cluster (Fixtures.specfile "updateconfig.yaml")
                           (Fixtures.start 100 [] Fixtures.installplan)))).
    reflexivity.
Defined.

Lemma approve_issues_one_patch_witness :
  ∃ body,
    patches_issued
      (process_update_spec Fixtures.test_config Fixtures.cluster
         (Fixtures.specfile "updateconfig.yaml"))
      (Fixtures.start 100 [] Fixtures.installplan)
    = [(body, "test-ns")] ∧
    approved (ip_spec body) = true ∧
    metadata_name body = "test-operator" ∧
    clusterServiceVersionNames (ip_spec body) = ["test-operator-1.0"] ∧
    other_fields (ip_spec body) = [].
Proof.
  apply (approve_issues_one_patch Fixtures.test_config Fixtures.cluster
           (Fixtures.specfile "updateconfig.yaml")
           (Fixtures.start 100 [] Fixtures.installplan)
           "test-operator" "test-ns" "test-operator-1.0"
           (Fixtures.fetched Fixtures.installplan)).
  - exists Fixtures.updateconfig, Fixtures.subscription.
    split_and!; reflexivity.
  - reflexivity.
  - reflexivity.
  - reflexivity.
Defined.

(** *** Plans that are already approved *)

Lemma approved_no_patch config env specfile st name namespace want plan :
  at_decision env specfile st name namespace want plan →
  approved (ip_spec plan) = true →
  patches_issued (process_update_spec config env specfile) st = [].
Proof.
  intros (spec&sub&?&?&?&?&?&?&?&?&?) Happr.
  apply not_nil_inv. rewrite patch_iff.
  intros (?&?&?&plan'&(?&?&?&?&?&?&?&?&?&?&?)&?&?&?).
  assert (ip_spec plan' = ip_spec plan) as Hsame by congruence.
  congruence.
Qed.

Lemma already_approved_logged config env specfile st name namespace want plan :
  at_decision env specfile st name namespace want plan →
  head (clusterServiceVersionNames (ip_spec plan)) = Some want →
  approved (ip_spec plan) = true →
  log_mentions "already approved"
    (logged (process_update_spec config env specfile) st) = true.
Proof.
  intros Hdec Hhead Happr. unfold logged.
  rewrite (decision_already_approved _ _ _ _ _ _ _ _ Hdec Hhead Happr).
  cbn [snd st_log add_log set_clock]. rewrite <- !app_assoc, drop_length_app.
  unfold log_mentions. cbn [app existsb snd render].
  do 2 (apply orb_true_iff; right). apply orb_true_iff; left.
  do 3 apply contains_app_r. reflexivity.
Qed.

(** C4, as amended.  A plan whose [approved] flag is already true is never
    patched; when its version is the one the spec asks for, the log says
    so ("already approved").  Hence, once a pass has approved a plan,
    processing the same spec again issues no second patch. *)
Theorem approved_plan_is_not_patched_again config env specfile :
  (∀ st name namespace want plan,
     at_decision env specfile st name namespace want plan →
     approved (ip_spec plan) = true →
     patches_issued (process_update_spec config env specfile) st = [] ∧
     (head (clusterServiceVersionNames (ip_spec plan)) = Some want →
      log_mentions "already approved"
        (logged (process_update_spec config env specfile) st) = true)) ∧
  (∀ st name namespace want plan,
     at_decision env specfile st name namespace want plan →
     head (clusterServiceVersionNames (ip_spec plan)) = Some want →
     approved (ip_spec plan) = false →
     approve_updates config = true →
     e_fault env (PatchInstallPlan (set_approved plan) namespace) = None →
     let st1 := (process_update_spec config env specfile st).2 in
     length (patches_issued (process_update_spec config env specfile) st) = 1 ∧
     at_decision env specfile st1 name namespace want (set_approved plan) ∧
     patches_issued (process_update_spec config env specfile) st1 = [] ∧
     log_mentions "already approved"
       (logged (process_update_spec config env specfile) st1) = true).
Proof.
  split.
  - intros st name ns want plan Hdec Happr. split.
    + by eapply approved_no_patch.
    + intros Hhead. by eapply already_approved_logged.
  - intros st name ns want plan Hdec Hhead Happr Hmode Hfault st1.
    assert (at_decision env specfile st1 name ns want (set_approved plan)) as Hdec1.
    { subst st1.
      rewrite (decision_approve _ _ _ _ _ _ _ _ Hdec Hhead Happr Hmode).
      destruct Hdec as (spec&sub&?&?&?&?&?&?&?&?&Hplan).
      exists spec, sub. split_and!; try done.
      eapply patch_stored in Hfault as [_ ->].
      + cbn [set_approved metadata_name]. apply lookup_insert_eq.
      + cbn [st_plans add_log set_clock set_approved metadata_name]. done. }
    split_and!.
    + unfold patches_issued.
      rewrite (decision_approve _ _ _ _ _ _ _ _ Hdec Hhead Happr Hmode),
        patch_recorded.
      cbn [st_patches add_log set_clock]. by rewrite drop_length_app.
    + done.
    + by eapply approved_no_patch.
    + by eapply already_approved_logged.
Qed.

Lemma approved_plan_is_not_patched_again_witness :
  let st := Fixtures.start 100 [] Fixtures.installplan in
  let run :=
    process_update_spec Fixtures.test_config Fixtures.cluster
      (Fixtures.specfile "updateconfig.yaml") in
  length (patches_issued run st) = 1 ∧
  patches_issued run (run st).2 = [] ∧
  log_mentions "already approved" (logged run (run st).2) = true.
Proof.
  intros st run.
  destruct (proj2 (approved_plan_is_not_patched_again Fixtures.test_config
                     Fixtures.cluster (Fixtures.specfile "updateconfig.yaml"))
              st "test-operator" "test-ns" "test-operator-1.0"
              (Fixtures.fetched Fixtures.installplan))
    as (H1 & _ & H2 & H3).
  - apply fixture_at_decision.
  - reflexivity.
  - reflexivity.
  - reflexivity.
  - reflexivity.
  - split_and!; assumption.
Defined.

(** C4, as stated, fails: a plan that is already approved but is for
    another version than the spec asks for is skipped as an invalid
    version, and no log record mentions "already approved". *)
Lemma approved_plan_other_version_not_logged :
  let st := Fixtures.start 100 [] Fixtures.installplan_approved_wrong_version in
  let run :=
    process_update_spec Fixtures.test_config Fixtures.cluster
      (Fixtures.specfile "updateconfig.yaml") in
  approved Fixtures.installplan_approved_wrong_version = true ∧
  st_plans st !! ("test-operator", "test-ns")
    = Some Fixtures.installplan_approved_wrong_version ∧
  (run st).1 = inr () ∧
  patches_issued run st = [] ∧
  map snd (logged run st)
    = [LProcessing "test-operator" "test-ns";
       LGotPlan "test-operator" "test-operator";
       LInvalidVersion "test-operator" "test-operator-2.0" "test-operator-1.0"] ∧
  log_mentions "already approved" (logged run st) = false.
Proof. vm_compute. split_and!; reflexivity. Qed.

(** *** Objects that are not found *)


Lemma subscriptions_get_state env name namespace st :
  (subscriptions_get env name namespace st).2 =
  set_clock (st_now st + e_latency env (GetSubscription name namespace))%Z
    (st_queue st) st.
Proof.
  destruct (e_fault env (GetSubscription name namespace)) eqn:Hf; step; [done|].
  destruct (e_subs env !! (name, namespace)) eqn:Hs; step; done.
Qed.


Lemma installplans_get_state env name namespace st :
  (installplans_get env name namespace st).2 =
  set_clock (st_now st + e_latency env (GetInstallPlan name namespace))%Z
    (st_queue st) st.
Proof.
  destruct (e_fault env (GetInstallPlan name namespace)) eqn:Hf; step; [done|].
  destruct (st_plans st !! (name, namespace)) eqn:Hs; step; done.
Qed.

Section NotFound.

Context (config : Config) (env : Env) (specfile : DirEntry) (st : State).
Context (spec : gmap string string) (name namespace : string).
Hypothesis Hload : de_load specfile = inr spec.
Hypothesis Hname : spec !! "name" = Some name.
Hypothesis Hnamespace : spec !! "namespace" = Some namespace.

Let st0 := add_log (INFO, LProcessing name namespace) st.



End NotFound.

(** *** The reconciliation pass *)

Lemma for_specfiles_cons config env specfile files count st :
  for_specfiles config env (specfile :: files) count st =
  if de_is_file specfile then
    match process_update_spec config env specfile st with
    | (inr _, st1) => for_specfiles config env files (S count) st1
    | (inl e, st1) =>
        if is_NotFoundError e then
          for_specfiles config env files (S count)
            (add_log (ERROR, LUnableToFind (summary e)) st1)
        else (inl e, st1)
    end
  else for_specfiles config env files count st.
Proof.
  cbn [for_specfiles]. destruct (de_is_file specfile); [|done].
  red_m. destruct (process_update_spec config env specfile st) as [[e|[]] st1];
    [|done].
  destruct (is_NotFoundError e); done.
Qed.

Lemma for_specfiles_filter config env files count st :
  for_specfiles config env files count st
  = for_specfiles config env (List.filter de_is_file files) count st.
Proof.
  revert count st. induction files as [|f files IH]; intros count st; [done|].
  cbn [List.filter]. destruct (de_is_file f) eqn:Hf.
  - rewrite !for_specfiles_cons, Hf.
    destruct (process_update_spec config env f st) as [[e|[]] st1]; [|apply IH].
    destruct (is_NotFoundError e); [apply IH|done].
  - rewrite for_specfiles_cons, Hf. apply IH.
Qed.

Lemma for_specfiles_count config env files count st n st' :
  for_specfiles config env files count st = (inr n, st') →
  n = count + length (List.filter de_is_file files).
Proof.
  revert count st. induction files as [|f files IH]; intros count st.
  - cbn. intros [= <- <-]. lia.
  - rewrite for_specfiles_cons. cbn [List.filter].
    destruct (de_is_file f); [|apply IH].
    destruct (process_update_spec config env f st) as [[e|[]] st1].
    + destruct (is_NotFoundError e); [|done].
      intros H%IH. cbn [length]. lia.
    + intros H%IH. cbn [length]. lia.
Qed.


Lemma process_update_specs_spec_files config env st :
  process_update_specs config env st
  = for_specfiles config env (spec_files env) 0 st.
Proof. unfold process_update_specs, spec_files. apply for_specfiles_filter. Qed.



(** *** Which files are update specifications *)

Lemma yml_not_yaml name :
  ends_with ".yml" name = true → ends_with ".yaml" name = false.
Proof.
  unfold ends_with. generalize (String.rev name). intros r.
  change (String.rev ".yml") with "lmy.". change (String.rev ".yaml") with "lmay.".
  destruct r as [|a [|b [|c r]]]; cbn [String.prefix]; try done;
    repeat (destruct (Ascii.ascii_dec _ _); try done).
  subst. done.
Qed.

Lemma filter_two_globs {A} (p a b : A → bool) (l : list A) :
  (∀ x, a x = true → b x = false) →
  length (List.filter p (List.filter a l ++ List.filter b l))
  = length (List.filter (λ x, p x && (a x || b x)) l).
Proof.
  intros Hab. rewrite List.filter_app, length_app.
  induction l as [|x l IH]; [done|]. cbn [List.filter].
  destruct (a x) eqn:Ha.
  - rewrite (Hab x Ha). cbn [List.filter orb].
    destruct (p x); cbn [andb length]; lia.
  - destruct (b x); cbn [List.filter orb]; destruct (p x); cbn [andb length]; lia.
Qed.

Lemma filter_idem {A} (p : A → bool) (l : list A) :
  List.filter p (List.filter p l) = List.filter p l.
Proof.
  induction l as [|x l IH]; [done|]. cbn [List.filter].
  destruct (p x) eqn:Hp; [|done]. cbn [List.filter]. by rewrite Hp, IH.
Qed.

Lemma spec_files_length env :
  length (spec_files env) = length (List.filter is_spec_file (e_dir env)).
Proof.
  unfold spec_files, glob.
  rewrite (filter_two_globs de_is_file
             (λ e, ends_with ".yml" (de_name e))
             (λ e, ends_with ".yaml" (de_name e))); [done|].
  intros e. apply yml_not_yaml.
Qed.

Lemma spec_files_elem env e :
  e ∈ spec_files env ↔ e ∈ e_dir env ∧ is_spec_file e = true.
Proof.
  unfold spec_files, glob, is_spec_file.
  rewrite !list_elem_of_In, List.filter_In, List.in_app_iff, !List.filter_In.
  rewrite andb_true_iff, orb_true_iff. tauto.
Qed.

Ltac announces :=
  step;
  first [ exists []; split; [by rewrite app_nil_r|reflexivity]
        | eexists; split; [by rewrite <- ?app_assoc|reflexivity] ].

Lemma process_update_spec_announces config env specfile st :
  ∃ new,
    st_log (process_update_spec config env specfile st).2 = st_log st ++ new ∧
    omap is_processing new = option_list (announced specfile).
Proof.
  unfold announced, process_update_spec.
  destruct (de_load specfile) as [e|spec] eqn:Hload; [announces|].
  destruct (spec !! "name") as [name|] eqn:Hname; [|announces].
  destruct (spec !! "namespace") as [ns|] eqn:Hns; [|announces].
  destruct (e_fault env (GetSubscription name ns)) as [e|] eqn:Hf1; [announces|].
  destruct (e_subs env !! (name, ns)) as [sub|] eqn:Hsub; [|announces].
  destruct (installPlanRef sub) as [pn|] eqn:Href; [|announces].
  destruct (e_fault env (GetInstallPlan pn ns)) as [e|] eqn:Hf2; [announces|].
  destruct (st_plans st !! (pn, ns)) as [ps|] eqn:Hps; [|announces].
  destruct (clusterServiceVersionNames ps) as [|have csvs] eqn:Hcsv; [announces|].
  destruct (spec !! "version") as [want|] eqn:Hwant; [|announces].
  destruct (String.eqb have want) eqn:Heq; [|announces].
  destruct (approved ps) eqn:Happr; [announces|].
  destruct (approve_updates config) eqn:Hmode; [|announces].
  destruct (e_fault env (PatchInstallPlan
              (set_approved {| metadata_name := pn; ip_spec := ps |}) ns))
    as [e|] eqn:Hf3; [announces|].
  step. cbn [set_approved metadata_name]. announces.
Qed.

Lemma omap_cons_option_list {A B} (f : A → option B) x l :
  omap f (x :: l) = option_list (f x) ++ omap f l.
Proof. cbn. by destruct (f x). Qed.

Lemma for_specfiles_announces config env files count st n st' :
  for_specfiles config env files count st = (inr n, st') →
  ∃ new,
    st_log st' = st_log st ++ new ∧
    omap is_processing new = omap announced (List.filter de_is_file files).
Proof.
  revert count st. induction files as [|f files IH]; intros count st.
  { intros [= <- <-]. exists []. by rewrite app_nil_r. }
  rewrite for_specfiles_cons. cbn [List.filter].
  destruct (de_is_file f); [|apply IH].
  destruct (process_update_spec_announces config env f st) as (new1 & Hlog1 & Hnew1).
  destruct (process_update_spec config env f st) as [[e|[]] st1]; cbn [snd] in Hlog1.
  - destruct (is_NotFoundError e); [|done].
    intros (new2 & Hlog2 & Hnew2)%IH. cbn [st_log add_log] in Hlog2.
    exists (new1 ++ [(ERROR, LUnableToFind (summary e))] ++ new2). split.
    + by rewrite Hlog2, Hlog1, <- !app_assoc.
    + rewrite omap_cons_option_list, !omap_app, Hnew1, Hnew2. reflexivity.
  - intros (new2 & Hlog2 & Hnew2)%IH.
    exists (new1 ++ new2). split.
    + by rewrite Hlog2, Hlog1, <- !app_assoc.
    + rewrite omap_cons_option_list, omap_app, Hnew1, Hnew2. reflexivity.
Qed.

(** C8.  A pass processes the regular files of the directory itself whose
    name matches [*.yml] or [*.yaml], each once, and nothing else: it hands
    each of them, in order, to [process_update_spec], whose 'processing
    subscription' records are, in the log of a pass that returns, those of
    exactly these files; the count it returns is their number.  With one
    [.yml], one [.yaml] and one [.gz] file that is two specs and the
    count 2. *)
Theorem pass_discovers_yml_and_yaml config env st :
  process_update_specs config env st
  = for_specfiles config env (spec_files env) 0 st ∧
  (∀ e, e ∈ spec_files env ↔ e ∈ e_dir env ∧ is_spec_file e = true) ∧
  length (spec_files env) = length (List.filter is_spec_file (e_dir env)) ∧
  (∀ count st',
     process_update_specs config env st = (inr count, st') →
     count = length (List.filter is_spec_file (e_dir env)) ∧
     omap is_processing (logged (process_update_specs config env) st)
     = omap announced (spec_files env)) ∧
  (map de_name (spec_files Fixtures.cluster_three_files)
   = ["testfile.yml"; "testfile.yaml"] ∧
   (process_update_specs Fixtures.test_config Fixtures.cluster_three_files
      (Fixtures.start 100 [] Fixtures.installplan)).1 = inr 2 ∧
   omap is_processing
     (logged (process_update_specs Fixtures.test_config Scenarios.three_named_files)
        (Fixtures.start 100 [] Fixtures.installplan))
   = [("operator-yml", "test-ns"); ("operator-yaml", "test-ns")]).
Proof.
  split_and!.
  - apply process_update_specs_spec_files.
  - apply spec_files_elem.
  - apply spec_files_length.
  - intros count st' Hpass. split.
    + rewrite process_update_specs_spec_files in Hpass.
      apply for_specfiles_count in Hpass. rewrite <- spec_files_length.
      rewrite Hpass. cbn [Nat.add]. unfold spec_files. by rewrite filter_idem.
    + unfold logged. rewrite Hpass. cbn [snd].
      rewrite process_update_specs_spec_files in Hpass.
      apply for_specfiles_announces in Hpass as (new & -> & Hnew).
      rewrite drop_length_app, Hnew. unfold spec_files. by rewrite filter_idem.
  - reflexivity.
  - reflexivity.
  - vm_compute. reflexivity.
Qed.

Lemma pass_discovers_yml_and_yaml_witness :
  let pass := process_update_specs Fixtures.test_config Scenarios.three_named_files in
  let st := Fixtures.start 100 [] Fixtures.installplan in
  (pass st).1 = inr 2 ∧
  2 = length (List.filter is_spec_file (e_dir Scenarios.three_named_files)) ∧
  omap is_processing (logged pass st)
  = omap announced (spec_files Scenarios.three_named_files).
Proof.
  intros pass st. split; [vm_compute; reflexivity|].
  apply (proj1 (proj2 (proj2 (proj2
           (pass_discovers_yml_and_yaml Fixtures.test_config
              Scenarios.three_named_files st)))) 2 (pass st).2).
  vm_compute; reflexivity.
Defined.

Lemma for_specfiles_all_not_found config env files count st :
  (∀ f st0, f ∈ files →
     ∃ s, (process_update_spec config env f st0).1 = inl (NotFoundError s)) →
  (for_specfiles config env files count st).1
  = inr (count + length (List.filter de_is_file files)).
Proof.
  revert count st. induction files as [|f files IH]; intros count st Hall.
  - cbn. f_equal. lia.
  - rewrite for_specfiles_cons. cbn [List.filter].
    assert (∀ f0 st0, f0 ∈ files →
              ∃ s, (process_update_spec config env f0 st0).1
                   = inl (NotFoundError s)) as Hrest.
    { intros f0 st0 Hin. apply Hall. by right. }
    destruct (de_is_file f).
    + destruct (Hall f st) as [s Hs]; [by left|].
      destruct (process_update_spec config env f st) as [r st1].
      cbn [fst] in Hs. subst r. cbn [is_NotFoundError].
      rewrite IH by done. f_equal. cbn [length]. lia.
    + by apply IH.
Qed.

(** C10.  The count a pass returns is the number of spec files it met:
    the counter is incremented before the spec is processed, so a spec
    skipped because of [NotFoundError] is counted as well, and a pass all of
    whose specs are skipped still returns their number. *)
Theorem count_includes_skipped_specs config env st :
  (∀ count st',
     process_update_specs config env st = (inr count, st') →
     count = length (spec_files env)) ∧
  (∀ specfile files count s st1,
     de_is_file specfile = true →
     process_update_spec config env specfile st = (inl (NotFoundError s), st1) →
     for_specfiles config env (specfile :: files) count st
     = for_specfiles config env files (S count)
         (add_log (ERROR, LUnableToFind s) st1)) ∧
  ((∀ f st0, f ∈ spec_files env →
      ∃ s, (process_update_spec config env f st0).1 = inl (NotFoundError s)) →
   (process_update_specs config env st).1 = inr (length (spec_files env))).
Proof.
  split_and!.
  - intros count st'. rewrite process_update_specs_spec_files.
    intros H%for_specfiles_count. rewrite H. cbn [Nat.add].
    unfold spec_files. by rewrite filter_idem.
  - intros specfile files count s st1 Hfile Hrun.
    by rewrite for_specfiles_cons, Hfile, Hrun.
  - intros Hall. rewrite process_update_specs_spec_files.
    rewrite for_specfiles_all_not_found by done. cbn [Nat.add].
    unfold spec_files. by rewrite filter_idem.
Qed.

Lemma count_includes_skipped_specs_witness :
  ∃ st',
    process_update_specs Fixtures.test_config Fixtures.cluster_two_missing
      (Fixtures.no_plans 100) = (inr 2, st') ∧
    map (λ r, render r.2) (st_log st')
    = ["processing subscription test-operator in namespace test-ns";
       "unable to find requested resource: 404 Reason: Not Found";
       "processing subscription test-operator in namespace test-ns";
       "unable to find requested resource: 404 Reason: Not Found"] ∧
    2 = length (spec_files Fixtures.cluster_two_missing).
Proof.
  exists (process_update_specs Fixtures.test_config Fixtures.cluster_two_missing
            (Fixtures.no_plans 100)).2.
  split; [vm_compute; reflexivity|]. split; [vm_compute; reflexivity|].
  apply (proj1 (count_includes_skipped_specs Fixtures.test_config
                  Fixtures.cluster_two_missing (Fixtures.no_plans 100)) 2
           (process_update_specs Fixtures.test_config
              Fixtures.cluster_two_missing (Fixtures.no_plans 100)).2).
  vm_compute; reflexivity.
Defined.

(** *** The event iterator *)

Lemma events_next_cases config st :
  (0 ≤ max_interval config)%Z →
  events_next config st =
  match st_queue st with
  | (t_put, event) :: rest =>
      if (t_put <=? st_now st + max_interval config)%Z then
        (inr event, set_clock (Z.max (st_now st) t_put) rest st)
      else
        (inr Timeout, set_clock (st_now st + max_interval config) (st_queue st) st)
  | [] => (inr Timeout, set_clock (st_now st + max_interval config) [] st)
  end.
Proof.
  intros Hmax. unfold events_next, q_get, try_except.
  destruct (Z.ltb_spec (max_interval config) 0) as [?|_]; [lia|].
  destruct (st_queue st) as [|[t_put event] rest]; [done|].
  destruct (t_put <=? st_now st + max_interval config)%Z; done.
Qed.

Lemma events_next_clock config st event st' :
  events_next config st = (inr event, st') →
  (st_now st ≤ st_now st')%Z ∧
  st_plans st' = st_plans st ∧ st_patches st' = st_patches st ∧
  st_log st' = st_log st.
Proof.
  destruct (Z.ltb_spec (max_interval config) 0) as [Hneg|Hmax].
  - unfold events_next, q_get, try_except.
    apply Z.ltb_lt in Hneg. rewrite Hneg. done.
  - rewrite events_next_cases by done.
    destruct (st_queue st) as [|[t_put ev] rest].
    + intros [= <- <-]. cbn. split; [lia|done].
    + destruct (t_put <=? st_now st + max_interval config)%Z;
        intros [= <- <-]; cbn; (split; [lia|done]).
Qed.

Lemma events_next_yields config st :
  (0 ≤ max_interval config)%Z →
  ∃ event st',
    events_next config st = (inr event, st') ∧
    (st_now st ≤ st_now st' ≤ st_now st + max_interval config)%Z.
Proof.
  intros Hmax. rewrite events_next_cases by done.
  destruct (st_queue st) as [|[t_put ev] rest].
  - eexists _, _. split; [done|]. cbn. lia.
  - destruct (Z.leb_spec t_put (st_now st + max_interval config)).
    + eexists _, _. split; [done|]. cbn. lia.
    + eexists _, _. split; [done|]. cbn. lia.
Qed.

Lemma events_next_quiet config st :
  (0 ≤ max_interval config)%Z →
  quiet_for (max_interval config) st →
  events_next config st
  = (inr Timeout, set_clock (st_now st + max_interval config) (st_queue st) st).
Proof.
  intros Hmax Hquiet. rewrite events_next_cases by done. unfold quiet_for in Hquiet.
  destruct (st_queue st) as [|[t_put ev] rest]; [done|].
  destruct (Z.leb_spec t_put (st_now st + max_interval config)); [lia|done].
Qed.

(** *** One turn of the loop *)

Lemma loop_body_ignored config env event t_last st :
  (st_now st - t_last < min_interval config)%Z →
  loop_body config env event t_last st
  = (inr t_last,
     add_log (DEBUG, LIgnoring (event_kind event) t_last (st_now st)
                       (st_now st - t_last)) st).
Proof.
  intros Hsoon. apply Z.ltb_lt in Hsoon. unfold loop_body. step. done.
Qed.

Lemma loop_body_admitted config env event t_last st :
  (min_interval config ≤ st_now st - t_last)%Z →
  loop_body config env event t_last st =
  match process_update_specs config env
          (add_log (INFO, LTriggered (event_kind event)) st) with
  | (inr sub_count, st1) =>
      (inr (st_now st),
       add_log (INFO, LFinished sub_count (st_now st1 - st_now st)) st1)
  | (inl e, st1) => (inl e, st1)
  end.
Proof.
  intros Hlate. apply Z.ltb_ge in Hlate. unfold loop_body. step.
  destruct (process_update_specs _ _ _) as [[e|n] st1]; done.
Qed.

Lemma loop_body_next config env event t_last st t_last' st' :
  loop_body config env event t_last st = (inr t_last', st') →
  t_last' = if negb (st_now st - t_last <? min_interval config)%Z
            then st_now st else t_last.
Proof.
  destruct (Z.ltb_spec (st_now st - t_last) (min_interval config)) as [Hsoon|Hlate].
  - rewrite loop_body_ignored by done. by intros [= <- <-].
  - rewrite loop_body_admitted by done.
    destruct (process_update_specs _ _ _) as [[e|n] st1]; [done|].
    by intros [= <- <-].
Qed.

Lemma loop_from_S config env fuel t_last st :
  loop_from config env (S fuel) t_last st =
  match events_next config st with
  | (inl e, st1) => (Raised e, [], st1)
  | (inr event, st1) =>
      let seen t_end :=
        {| it_event := event; it_put := next_put (max_interval config) st;
           it_last := t_last; it_start := st_now st1;
           it_admitted := negb (st_now st1 - t_last <? min_interval config)%Z;
           it_end := t_end |} in
      match loop_body config env event t_last st1 with
      | (inl e, st2) => (Raised e, [seen (st_now st2)], st2)
      | (inr t_last', st2) =>
          (((loop_from config env fuel t_last' st2).1).1,
           seen (st_now st2) :: ((loop_from config env fuel t_last' st2).1).2,
           (loop_from config env fuel t_last' st2).2)
      end
  end.
Proof.
  cbn [loop_from]. destruct (events_next config st) as [[e|event] st1]; [done|].
  destruct (loop_body config env event t_last st1) as [[e|t_last'] st2]; [done|].
  destruct (loop_from config env fuel t_last' st2) as [[out its] st3]. done.
Qed.

(** *** The debounce gate along a run *)

Lemma loop_from_gate_chain config env fuel t_last st :
  gate_chain (min_interval config) t_last (st_now st)
    (loop_from config env fuel t_last st).1.2.
Proof.
  revert t_last st. induction fuel as [|fuel IH]; intros t_last st; [done|].
  rewrite loop_from_S.
  destruct (events_next config st) as [[e|event] st1] eqn:Hev; [done|].
  apply events_next_clock in Hev as (Hclock & _).
  destruct (loop_body config env event t_last st1) as [[e|t_last'] st2] eqn:Hbody.
  - cbn. done.
  - apply loop_body_next in Hbody. cbn [fst snd gate_chain it_last it_start
      it_admitted it_end]. split_and!; try done.
    rewrite <- Hbody. apply IH.
Qed.

Lemma gate_chain_app d t_last now l1 l2 :
  gate_chain d t_last now (l1 ++ l2) →
  ∃ t_last' now', gate_chain d t_last' now' l2.
Proof.
  revert t_last now. induction l1 as [|it l1 IH]; intros t_last now; [by eauto|].
  cbn. intros (_ & _ & _ & Hrest). by eapply IH.
Qed.

Lemma gate_chain_prefix d t_last now l1 l2 :
  gate_chain d t_last now (l1 ++ l2) → gate_chain d t_last now l1.
Proof.
  revert t_last now. induction l1 as [|it l1 IH]; intros t_last now; [done|].
  cbn [app gate_chain]. intros (?&?&?&Hrest). split_and!; try done. by apply IH.
Qed.

Lemma gate_chain_all_ignored d t_last now its :
  gate_chain d t_last now its →
  (∀ b, b ∈ its → (it_start b - t_last < d)%Z) →
  passes its = [].
Proof.
  revert now. induction its as [|it its IH]; intros now; [done|].
  cbn [gate_chain]. intros (_ & _ & Hadm & Hrest) Hsoon.
  assert (it_admitted it = false) as Hign.
  { rewrite Hadm. apply negb_false_iff, Z.ltb_lt, Hsoon. by left. }
  rewrite Hign in Hrest. unfold passes. cbn [List.filter]. rewrite Hign.
  eapply IH; [done|]. intros b Hb. apply Hsoon. by right.
Qed.

Lemma gate_chain_window d t_last now its :
  gate_chain d t_last now its →
  within_window d its →
  length (passes its) ≤ 1 ∧
  ∀ first rest, its = first :: rest → it_admitted first = true →
                passes its = [first].
Proof.
  revert t_last now. induction its as [|it its IH]; intros t_last now.
  { intros _ _. split; [cbn; lia|done]. }
  cbn [gate_chain]. intros (_ & _ & _ & Hrest) Hwin.
  assert (within_window d its) as Hwin'.
  { intros a b Ha Hb. apply Hwin; by right. }
  unfold passes. cbn [List.filter].
  destruct (it_admitted it) eqn:Hadm.
  - assert (passes its = []) as Hnone.
    { eapply gate_chain_all_ignored; [done|].
      intros b Hb. apply Hwin; [by left|by right]. }
    unfold passes in Hnone. rewrite Hnone. split; [cbn; lia|].
    by intros first rest [= <- <-] _.
  - split; [by eapply IH|]. intros first rest [= <- <-]. congruence.
Qed.

Lemma gate_chain_adjacent d t_last now a b post :
  gate_chain d t_last now (a :: b :: post) →
  it_admitted a = true →
  it_last b = it_start a ∧
  (it_end a ≤ it_start b)%Z ∧
  it_admitted b = negb (it_start b - it_start a <? d)%Z.
Proof.
  cbn [gate_chain]. intros (_ & _ & _ & Hb) Hadm. rewrite Hadm in Hb.
  destruct Hb as (? & ? & ? & _). done.
Qed.

Lemma gate_chain_skip_ignored d t_last now l rest :
  gate_chain d t_last now (l ++ rest) →
  passes l = [] →
  ∃ now', gate_chain d t_last now' rest.
Proof.
  revert now. induction l as [|it l IH]; intros now; [by eauto|].
  cbn [app gate_chain]. intros (_ & _ & _ & Hrest). unfold passes.
  cbn [List.filter]. destruct (it_admitted it); [done|].
  intros Hnone. by apply (IH _ Hrest).
Qed.

Lemma gate_chain_consecutive_passes d t_last now a between b post :
  gate_chain d t_last now (a :: between ++ b :: post) →
  it_admitted a = true →
  passes between = [] →
  it_admitted b = true →
  (d ≤ it_start b - it_start a)%Z.
Proof.
  cbn [gate_chain]. intros (_ & _ & _ & Hrest) Ha Hnone Hb. rewrite Ha in Hrest.
  apply gate_chain_skip_ignored in Hrest as [now' Hrest]; [|done].
  cbn [gate_chain] in Hrest. destruct Hrest as (_ & _ & Hadm & _).
  rewrite Hb in Hadm. symmetry in Hadm. apply negb_true_iff, Z.ltb_ge in Hadm. done.
Qed.

(** C2, as amended.  An event received less than [min_interval] after
    [t_last] is discarded: no pass runs, the clock, the cluster and the
    patch calls are as they were, and [t_last] is kept.  Hence in a burst
    all of whose events are received within less than [min_interval] of one
    another at most one pass runs, and when the first event of the burst
    starts a pass no other event of the burst does; and two passes in a row
    always start [min_interval] or more apart. *)
Theorem debounce_gate config env :
  (∀ event t_last st,
     (st_now st - t_last < min_interval config)%Z →
     loop_body config env event t_last st
     = (inr t_last,
        add_log (DEBUG, LIgnoring (event_kind event) t_last (st_now st)
                          (st_now st - t_last)) st)) ∧
  (∀ fuel t_last st pre burst post,
     (loop_from config env fuel t_last st).1.2 = pre ++ burst ++ post →
     within_window (min_interval config) burst →
     length (passes burst) ≤ 1 ∧
     ∀ first rest, burst = first :: rest → it_admitted first = true →
                   passes burst = [first]) ∧
  (∀ fuel t_last st pre a between b post,
     (loop_from config env fuel t_last st).1.2
     = pre ++ a :: between ++ b :: post →
     it_admitted a = true → passes between = [] → it_admitted b = true →
     (min_interval config ≤ it_start b - it_start a)%Z).
Proof.
  split_and!.
  - apply loop_body_ignored.
  - intros fuel t_last st pre burst post Htrace Hwin.
    pose proof (loop_from_gate_chain config env fuel t_last st) as Hchain.
    rewrite Htrace in Hchain.
    apply gate_chain_app in Hchain as (t' & now' & Hchain).
    apply gate_chain_prefix in Hchain. by eapply gate_chain_window.
  - intros fuel t_last st pre a between b post Htrace Ha Hnone Hb.
    pose proof (loop_from_gate_chain config env fuel t_last st) as Hchain.
    rewrite Htrace in Hchain.
    apply gate_chain_app in Hchain as (t' & now' & Hchain).
    by eapply gate_chain_consecutive_passes.
Qed.

Lemma debounce_gate_witness :
  let trace :=
    (loop_from default_config Fixtures.cluster 3 0
       (Fixtures.start 100 Fixtures.burst_queue Fixtures.installplan)).1.2 in
  map (λ it, (it_start it, it_admitted it)) trace
  = [(100, true); (105, false); (112, true)]%Z ∧
  length (passes (take 2 trace)) ≤ 1 ∧
  (10 ≤ 112 - 100)%Z.
Proof.
  intros trace. split; [vm_compute; reflexivity|]. split.
  - apply (proj1 (proj2 (debounce_gate default_config Fixtures.cluster))
             3 0%Z (Fixtures.start 100 Fixtures.burst_queue Fixtures.installplan)
             [] (take 2 trace) (drop 2 trace)).
    + vm_compute; reflexivity.
    + intros a b Ha Hb. vm_compute in Ha, Hb.
      apply elem_of_cons in Ha as [->|Ha]; [|apply elem_of_cons in Ha as [->|Ha]];
        [| |by apply elem_of_nil in Ha];
        (apply elem_of_cons in Hb as [->|Hb]; [|apply elem_of_cons in Hb as [->|Hb]];
         [| |by apply elem_of_nil in Hb]); vm_compute; reflexivity.
  - apply (proj2 (proj2 (debounce_gate default_config Fixtures.cluster))
             3 0%Z (Fixtures.start 100 Fixtures.burst_queue Fixtures.installplan)
             [] (Build_Iteration (FsEvent "a") (Some 100%Z) 0 100 true 100)
             [Build_Iteration (FsEvent "b") (Some 105%Z) 100 105 false 105]
             (Build_Iteration (FsEvent "c") (Some 112%Z) 100 112 true 112) []).
    + vm_compute; reflexivity.
    + reflexivity.
    + reflexivity.
    + reflexivity.
Defined.

(** C2, as stated, fails under either reading of "closer together than
    [min_interval]".  With [min_interval = 10] and events received at 100,
    105 and 112, each event follows the one before it by less than 10
    seconds, yet passes run for the first and for the third; and the events
    at 105 and 112 are within 10 seconds of each other, yet the pass among
    them is started by the second, not the first. *)
Lemma burst_with_two_passes :
  map (λ it, (it_start it, it_admitted it))
    (loop default_config Fixtures.cluster 3
       (Fixtures.start 100 Fixtures.burst_queue Fixtures.installplan)).1.2
  = [(100, true); (105, false); (112, true)]%Z ∧
  ¬ one_pass_per_burst closer_together ∧
  ¬ one_pass_per_burst within_window.
Proof.
  pose (st := Fixtures.start 100 Fixtures.burst_queue Fixtures.installplan).
  pose (a := Build_Iteration (FsEvent "a") (Some 100%Z) 0 100 true 100).
  pose (b := Build_Iteration (FsEvent "b") (Some 105%Z) 100 105 false 105).
  pose (c := Build_Iteration (FsEvent "c") (Some 112%Z) 100 112 true 112).
  assert ((loop default_config Fixtures.cluster 3 st).1.2 = [a; b; c]) as Htrace
    by (vm_compute; reflexivity).
  split_and!.
  - vm_compute; reflexivity.
  - intros H.
    destruct (H default_config Fixtures.cluster 3 st [] [a; b; c] []) as [Hlen _].
    + by rewrite Htrace.
    + cbn. lia.
    + cbn in Hlen. lia.
  - intros H.
    destruct (H default_config Fixtures.cluster 3 st [a] [b; c] []) as [_ Hfirst].
    + by rewrite Htrace.
    + intros x y Hx Hy.
      apply elem_of_cons in Hx as [->|Hx]; [|apply list_elem_of_singleton in Hx as ->];
        (apply elem_of_cons in Hy as [->|Hy]; [|apply list_elem_of_singleton in Hy as ->]);
        cbn; lia.
    + specialize (Hfirst c). cbn in Hfirst.
      assert (Some b = Some c) as [=]. apply Hfirst. by left.
Qed.

(** C9, as amended.  For an admitted event whose pass returns, the next
    [t_last] is [t_start], the time read when the event was received and
    before the pass ran.  The event of the next turn is received when the
    pass is over, its elapsed time is measured from the start of the pass,
    and it starts a pass exactly when that is [min_interval] or more; so
    after a pass that lasted [min_interval] or longer the next event always
    starts a pass. *)
Theorem t_last_is_start_of_pass config env :
  (∀ event t_last st t_last' st',
     (min_interval config ≤ st_now st - t_last)%Z →
     loop_body config env event t_last st = (inr t_last', st') →
     t_last' = st_now st) ∧
  (∀ fuel t_last st pre a b post,
     (loop_from config env fuel t_last st).1.2 = pre ++ a :: b :: post →
     it_admitted a = true →
     it_last b = it_start a ∧
     (it_end a ≤ it_start b)%Z ∧
     it_admitted b = negb (it_start b - it_start a <? min_interval config)%Z ∧
     ((min_interval config ≤ it_end a - it_start a)%Z → it_admitted b = true)).
Proof.
  split.
  - intros event t_last st t_last' st' Hlate Hbody.
    apply loop_body_next in Hbody. apply Z.ltb_ge in Hlate.
    by rewrite Hlate in Hbody.
  - intros fuel t_last st pre a b post Htrace Ha.
    pose proof (loop_from_gate_chain config env fuel t_last st) as Hchain.
    rewrite Htrace in Hchain.
    apply gate_chain_app in Hchain as (t' & now' & Hchain).
    destruct (gate_chain_adjacent _ _ _ _ _ _ Hchain Ha) as (Hlast & Hclock & Hadm).
    split_and!; try done.
    intros Hlong. rewrite Hadm. apply negb_true_iff, Z.ltb_ge. lia.
Qed.

Lemma t_last_is_start_of_pass_witness :
  let trace :=
    (loop_from default_config Fixtures.slow_cluster 2 0
       (Fixtures.start 100 Fixtures.two_events Fixtures.installplan)).1.2 in
  map (λ it, (it_last it, it_start it, it_end it)) trace
  = [(0, 100, 115); (100, 115, 130)]%Z ∧
  map it_admitted trace = [true; true].
Proof.
  intros trace.
  pose (a := Build_Iteration (FsEvent "a") (Some 100%Z) 0 100 true 115).
  pose (b := Build_Iteration (FsEvent "b") (Some 105%Z) 100 115 true 130).
  assert (trace = [] ++ a :: b :: []) as Htrace by (vm_compute; reflexivity).
  destruct (proj2 (t_last_is_start_of_pass default_config Fixtures.slow_cluster)
              2 0%Z (Fixtures.start 100 Fixtures.two_events Fixtures.installplan)
              [] a b [] Htrace eq_refl) as (_ & _ & _ & Hb).
  assert (it_admitted b = true) as _ by (apply Hb; vm_compute; discriminate).
  split; vm_compute; reflexivity.
Defined.

(** C9, as stated, fails.  With [min_interval = 10], a pass that starts at
    100 and takes 15 seconds, and an event put on the queue at 105, while
    the pass runs: the event is received at 115, which is 15 seconds after
    [t_last = 100], and starts a second pass. *)
Lemma pass_retriggered_by_event_queued_during_it :
  st_queue (Fixtures.start 100 Fixtures.two_events Fixtures.installplan)
  = [(100, FsEvent "a"); (105, FsEvent "b")]%Z ∧
  (loop default_config Fixtures.slow_cluster 2
     (Fixtures.start 100 Fixtures.two_events Fixtures.installplan)).1.2
  = [ {| it_event := FsEvent "a"; it_put := Some 100%Z; it_last := 0;
         it_start := 100; it_admitted := true; it_end := 115 |};
      {| it_event := FsEvent "b"; it_put := Some 105%Z; it_last := 100;
         it_start := 115; it_admitted := true; it_end := 130 |} ] ∧
  ¬ no_self_retrigger.
Proof.
  split; [reflexivity|]. split; [vm_compute; reflexivity|].
  intros H.
  pose (a := Build_Iteration (FsEvent "a") (Some 100%Z) 0 100 true 115).
  pose (b := Build_Iteration (FsEvent "b") (Some 105%Z) 100 115 true 130).
  assert (it_admitted b = false) as Hb; [|done].
  apply (H default_config Fixtures.slow_cluster 2
           (Fixtures.start 100 Fixtures.two_events Fixtures.installplan)
           [] a b []).
  - vm_compute; reflexivity.
  - reflexivity.
  - exists 105%Z. split; [reflexivity|]. cbn. lia.
Qed.

Lemma loop_turn config env t_last st event st1 :
  events_next config st = (inr event, st1) →
  ∃ it,
    it_event it = event ∧ it_last it = t_last ∧ it_start it = st_now st1 ∧
    loop_from config env 1 t_last st =
    if (st_now st1 - t_last <? min_interval config)%Z then
      ((turn_ignored event t_last st1).1, [it], (turn_ignored event t_last st1).2)
    else
      ((turn_with_pass config env event st1).1, [it],
       (turn_with_pass config env event st1).2).
Proof.
  intros Hev. rewrite loop_from_S, Hev. unfold turn_with_pass, turn_ignored.
  destruct (Z.ltb_spec (st_now st1 - t_last) (min_interval config)) as [Hsoon|Hlate].
  - rewrite loop_body_ignored by done. eexists. split_and!; [..|reflexivity]; done.
  - rewrite loop_body_admitted by done.
    destruct (process_update_specs config env _) as [[e|n] st2];
      (eexists; split_and!; [..|reflexivity]; done).
Qed.

(** C3, as amended.  With a [max_interval] that is not negative, the
    iterator always yields, at most [max_interval] after it was asked; when
    nothing is put on the queue in that time it yields the synthesized
    timeout event, at [max_interval] exactly.  The turn of the loop hands
    the event to the debounce gate: received less than [min_interval] after
    [t_last] it is logged and ignored, otherwise [process_update_specs]
    runs for it. *)
Theorem events_always_yield config st :
  (0 ≤ max_interval config)%Z →
  (∃ event st',
     events_next config st = (inr event, st') ∧
     (st_now st ≤ st_now st' ≤ st_now st + max_interval config)%Z) ∧
  (quiet_for (max_interval config) st →
   events_next config st
   = (inr Timeout, set_clock (st_now st + max_interval config) (st_queue st) st)) ∧
  (∀ env t_last event st1,
     events_next config st = (inr event, st1) →
     ∃ it,
       it_event it = event ∧ it_start it = st_now st1 ∧
       loop_from config env 1 t_last st =
       if (st_now st1 - t_last <? min_interval config)%Z then
         ((turn_ignored event t_last st1).1, [it], (turn_ignored event t_last st1).2)
       else
         ((turn_with_pass config env event st1).1, [it],
          (turn_with_pass config env event st1).2)).
Proof.
  intros Hmax. split_and!.
  - by apply events_next_yields.
  - by apply events_next_quiet.
  - intros env t_last event st1 Hev.
    destruct (loop_turn config env t_last st event st1 Hev) as (it & ? & _ & ? & ?).
    by exists it.
Qed.

Lemma events_always_yield_witness :
  let st := Fixtures.start 100 [] Fixtures.installplan in
  let st1 := set_clock 102 [] st in
  events_next Fixtures.test_config st = (inr Timeout, st1) ∧
  ∃ it,
    it_event it = Timeout ∧ it_start it = 102%Z ∧
    loop_from Fixtures.test_config Fixtures.cluster 1 0 st
    = ((turn_with_pass Fixtures.test_config Fixtures.cluster Timeout st1).1, [it],
       (turn_with_pass Fixtures.test_config Fixtures.cluster Timeout st1).2).
Proof.
  intros st st1.
  pose proof (events_always_yield Fixtures.test_config st
                ltac:(vm_compute; discriminate)) as (_ & Hquiet & Hturn).
  specialize (Hquiet I).
  split; [exact Hquiet|].
  destruct (Hturn Fixtures.cluster 0%Z Timeout st1 Hquiet) as (it & Hev & Hstart & Hloop).
  exists it. split; [exact Hev|]. split; [exact Hstart|exact Hloop].
Defined.

(** C3, as stated, fails: with [max_interval = -1] the pop of the queue
    raises [ValueError], which the iterator does not catch; it yields
    nothing, and the loop ends before its first turn. *)
Lemma events_raise_for_negative_max_interval :
  let st := Fixtures.start 100 Fixtures.two_events Fixtures.installplan in
  max_interval Scenarios.negative_max_interval = (-1)%Z ∧
  events_next Scenarios.negative_max_interval st
  = (inl (OtherError "ValueError" "'timeout' must be a non-negative number"), st) ∧
  loop Scenarios.negative_max_interval Fixtures.cluster 3 st
  = (Raised (OtherError "ValueError" "'timeout' must be a non-negative number"),
     [], st).
Proof. intros st. split_and!; vm_compute; reflexivity. Qed.

(** *** Fatal errors *)

Lemma loop_from_raised_stable config env fuel more t_last st e its st' :
  loop_from config env fuel t_last st = (Raised e, its, st') →
  loop_from config env (fuel + more) t_last st = (Raised e, its, st').
Proof.
  revert t_last st its. induction fuel as [|fuel IH]; intros t_last st its; [done|].
  cbn [Nat.add]. rewrite !loop_from_S.
  destruct (events_next config st) as [[e1|event] st1]; [done|].
  destruct (loop_body config env event t_last st1) as [[e2|t_last'] st2]; [done|].
  destruct (loop_from config env fuel t_last' st2) as [[out its'] st3] eqn:Hrec.
  cbn [fst snd]. intros [= -> <- <-].
  by rewrite (IH _ _ _ Hrec).
Qed.

Lemma loop_unfold config env fuel st :
  loop config env fuel st = loop_from config env fuel 0 st.
Proof. reflexivity. Qed.

Lemma main_connected config env fuel st :
  e_connect env = None →
  main config env fuel st =
  match loop config env fuel st with
  | (Running _, its, st') => (StillRunning, its, st')
  | (Raised err, its, st') =>
      let '(r, st'') := main_except err st' in (r, its, st'')
  end.
Proof. intros Hconnect. unfold main, Approver_init. by rewrite Hconnect. Qed.




(** * Further properties of the code *)

(** *** What processing one spec changes *)

Ltac log_grows :=
  first [ by (exists []; rewrite app_nil_r)
        | by (eexists; rewrite <- ?app_assoc) ].

Ltac untouched := step; split; [done|]; split; [log_grows|]; left; done.

Lemma process_update_spec_effect config env specfile st :
  let st' := (process_update_spec config env specfile st).2 in
  st_queue st' = st_queue st ∧
  (∃ new, st_log st' = st_log st ++ new) ∧
  ((st_patches st' = st_patches st ∧ st_plans st' = st_plans st) ∨
   ∃ name namespace want plan,
     at_decision env specfile st name namespace want plan ∧
     head (clusterServiceVersionNames (ip_spec plan)) = Some want ∧
     approved (ip_spec plan) = false ∧
     approve_updates config = true ∧
     st_patches st' = st_patches st ++ [(set_approved plan, namespace)] ∧
     (st_plans st' = st_plans st ∨
      st_plans st'
      = <[(metadata_name plan, namespace) := ip_spec (set_approved plan)]>
          (st_plans st))).
Proof.
  cbv zeta. unfold process_update_spec.
  destruct (de_load specfile) as [e|spec] eqn:Hload; [untouched|].
  destruct (spec !! "name") as [name|] eqn:Hname; [|untouched].
  destruct (spec !! "namespace") as [ns|] eqn:Hns; [|untouched].
  destruct (e_fault env (GetSubscription name ns)) as [e|] eqn:Hf1; [untouched|].
  destruct (e_subs env !! (name, ns)) as [sub|] eqn:Hsub; [|untouched].
  destruct (installPlanRef sub) as [pn|] eqn:Href; [|untouched].
  destruct (e_fault env (GetInstallPlan pn ns)) as [e|] eqn:Hf2; [untouched|].
  destruct (st_plans st !! (pn, ns)) as [ps|] eqn:Hps; [|untouched].
  destruct (clusterServiceVersionNames ps) as [|have csvs] eqn:Hcsv; [untouched|].
  destruct (spec !! "version") as [want|] eqn:Hwant; [|untouched].
  destruct (String.eqb have want) eqn:Heq; [|untouched].
  pose proof Heq as Hhave. apply String.eqb_eq in Hhave. subst have.
  destruct (approved ps) eqn:Happr; [untouched|].
  destruct (approve_updates config) eqn:Hmode; [|untouched].
  assert (at_decision env specfile st name ns want
            {| metadata_name := pn; ip_spec := ps |}) as Hdec.
  { exists spec, sub. split_and!; done. }
  destruct (e_fault env (PatchInstallPlan
              (set_approved {| metadata_name := pn; ip_spec := ps |}) ns))
    as [e|] eqn:Hf3.
  - step. split; [done|]. split; [log_grows|]. right.
    exists name, ns, want, {| metadata_name := pn; ip_spec := ps |}.
    cbn [ip_spec metadata_name]. rewrite Hcsv. split_and!; try done. by left.
  - step. cbn [set_approved metadata_name]. step.
    split; [done|]. split; [log_grows|]. right.
    exists name, ns, want, {| metadata_name := pn; ip_spec := ps |}.
    cbn [ip_spec metadata_name set_approved]. rewrite Hcsv.
    split_and!; try done. by right.
Qed.

Lemma plan_kept_refl o : plan_kept o o.
Proof. by destruct o. Qed.

Lemma plan_kept_trans o1 o2 o3 : plan_kept o1 o2 → plan_kept o2 o3 → plan_kept o1 o3.
Proof.
  destruct o1 as [p1|], o2 as [p2|], o3 as [p3|]; cbn; try done.
  intros (Hc1 & Ho1 & Ha1) (Hc2 & Ho2 & Ha2). split_and!; [congruence|congruence|auto].
Qed.

Lemma plans_monotone_approve plans pn ns plan :
  plans !! (pn, ns) = Some (ip_spec plan) →
  plans_monotone plans (<[(pn, ns) := ip_spec (set_approved plan)]> plans).
Proof.
  intros Hold k. destruct (decide (k = (pn, ns))) as [->|Hne].
  - rewrite lookup_insert_eq, Hold. cbn. done.
  - rewrite lookup_insert_ne by done. apply plan_kept_refl.
Qed.

Lemma evolves_refl config st : evolves config st st.
Proof.
  split_and!.
  - by exists [].
  - exists []. by rewrite app_nil_r.
  - exists []. by rewrite app_nil_r.
  - intros k. apply plan_kept_refl.
  - done.
Qed.

Lemma evolves_trans config st1 st2 st3 :
  evolves config st1 st2 → evolves config st2 st3 → evolves config st1 st3.
Proof.
  intros ((q1 & Hq1) & (l1 & Hl1) & (p1 & Hp1 & Ha1) & Hm1 & Hd1)
         ((q2 & Hq2) & (l2 & Hl2) & (p2 & Hp2 & Ha2) & Hm2 & Hd2).
  split_and!.
  - exists (q1 ++ q2). by rewrite Hq1, Hq2, app_assoc.
  - exists (l1 ++ l2). by rewrite Hl2, Hl1, app_assoc.
  - exists (p1 ++ p2). split; [by rewrite Hp2, Hp1, app_assoc|].
    by apply Forall_app.
  - intros k. by eapply plan_kept_trans.
  - intros Hdry. destruct (Hd1 Hdry) as [E1 E2], (Hd2 Hdry) as [E3 E4].
    split; congruence.
Qed.

Lemma evolves_add_log config r st : evolves config st (add_log r st).
Proof.
  split_and!; cbn.
  - by exists [].
  - by exists [r].
  - exists []. by rewrite app_nil_r.
  - intros k. apply plan_kept_refl.
  - done.
Qed.

Lemma process_update_spec_evolves config env specfile st :
  evolves config st (process_update_spec config env specfile st).2.
Proof.
  destruct (process_update_spec_effect config env specfile st)
    as (Hq & Hlog & [[Hp Hplans]|Happrove]).
  - split_and!.
    + exists []. by rewrite Hq.
    + done.
    + exists []. by rewrite app_nil_r.
    + rewrite Hplans. intros k. apply plan_kept_refl.
    + done.
  - destruct Happrove as (name & ns & want & plan & Hdec & _ & _ & Hmode & Hp & Hplans).
    split_and!.
    + exists []. by rewrite Hq.
    + done.
    + exists [(set_approved plan, ns)]. split; [done|]. by constructor.
    + destruct Hplans as [->| ->].
      * intros k. apply plan_kept_refl.
      * destruct Hdec as (?&?&?&?&?&?&?&?&?&?&Hold).
        by apply plans_monotone_approve.
    + congruence.
Qed.

Lemma for_specfiles_evolves config env files count st :
  evolves config st (for_specfiles config env files count st).2.
Proof.
  revert count st. induction files as [|f files IH]; intros count st.
  { apply evolves_refl. }
  rewrite for_specfiles_cons. destruct (de_is_file f); [|apply IH].
  pose proof (process_update_spec_evolves config env f st) as Hspec.
  destruct (process_update_spec config env f st) as [[e|[]] st1]; cbn [snd] in Hspec.
  - destruct (is_NotFoundError e); [|done].
    eapply evolves_trans; [done|].
    eapply evolves_trans; [apply evolves_add_log|apply IH].
  - eapply evolves_trans; [done|apply IH].
Qed.

Lemma events_next_evolves config st :
  evolves config st (events_next config st).2.
Proof.
  unfold events_next, q_get, try_except.
  destruct (max_interval config <? 0)%Z; [apply evolves_refl|].
  destruct (st_queue st) as [|[t_put event] rest] eqn:Hq.
  - cbn. split_and!; cbn; rewrite ?Hq.
    + by exists [].
    + exists []. by rewrite app_nil_r.
    + exists []. by rewrite app_nil_r.
    + intros k. apply plan_kept_refl.
    + done.
  - destruct (t_put <=? st_now st + max_interval config)%Z; cbn;
      (split_and!; cbn; rewrite ?Hq;
       [ first [by exists [(t_put, event)] | by exists []]
       | exists []; by rewrite app_nil_r
       | exists []; by rewrite app_nil_r
       | intros k; apply plan_kept_refl
       | done ]).
Qed.

Lemma loop_body_evolves config env event t_last st :
  evolves config st (loop_body config env event t_last st).2.
Proof.
  destruct (Z.ltb_spec (st_now st - t_last) (min_interval config)) as [Hsoon|Hlate].
  - rewrite loop_body_ignored by done. apply evolves_add_log.
  - rewrite loop_body_admitted by done.
    pose proof (for_specfiles_evolves config env
                  (glob env ".yml" ++ glob env ".yaml") 0
                  (add_log (INFO, LTriggered (event_kind event)) st)) as Hpass.
    fold (process_update_specs config env) in Hpass.
    destruct (process_update_specs config env _) as [[e|n] st1]; cbn [snd] in *.
    + eapply evolves_trans; [apply evolves_add_log|done].
    + eapply evolves_trans; [apply evolves_add_log|].
      eapply evolves_trans; [done|apply evolves_add_log].
Qed.

Lemma loop_from_evolves config env fuel t_last st :
  evolves config st (loop_from config env fuel t_last st).2.
Proof.
  revert t_last st. induction fuel as [|fuel IH]; intros t_last st.
  { apply evolves_refl. }
  rewrite loop_from_S.
  pose proof (events_next_evolves config st) as Hev.
  destruct (events_next config st) as [[e|event] st1]; cbn [snd] in Hev; [done|].
  pose proof (loop_body_evolves config env event t_last st1) as Hbody.
  destruct (loop_body config env event t_last st1) as [[e|t_last'] st2];
    cbn [snd] in Hbody.
  - by eapply evolves_trans.
  - cbn [snd]. eapply evolves_trans; [done|]. eapply evolves_trans; [done|apply IH].
Qed.

Lemma main_except_evolves config err st :
  evolves config st (main_except err st).2.
Proof.
  unfold main_except.
  destruct (is_UnauthorizedError err); [apply evolves_add_log|].
  destruct (is_DynamicApiError err); [apply evolves_add_log|].
  destruct (is_FileNotFoundError err); [apply evolves_add_log|apply evolves_refl].
Qed.

Lemma main_not_connected config env fuel st e :
  e_connect env = Some e →
  main config env fuel st
  = let '(r, st') := main_except e st in (r, [], st').
Proof. intros Hconnect. unfold main, Approver_init. by rewrite Hconnect. Qed.

Lemma main_evolves config env fuel st :
  evolves config st (main config env fuel st).2.
Proof.
  destruct (e_connect env) as [e|] eqn:Hconnect.
  - rewrite (main_not_connected _ _ _ _ _ Hconnect).
    pose proof (main_except_evolves config e st) as H.
    by destruct (main_except e st).
  - rewrite main_connected, loop_unfold by done.
    pose proof (loop_from_evolves config env fuel 0 st) as Hloop.
    destruct (loop_from config env fuel 0 st) as [[[t|e] its] st1]; cbn [snd] in *.
    + done.
    + pose proof (main_except_evolves config e st1) as H.
      destruct (main_except e st1). cbn [snd] in *. by eapply evolves_trans.
Qed.

(** *** The queue *)

Lemma for_specfiles_queue config env files count st :
  st_queue (for_specfiles config env files count st).2 = st_queue st.
Proof.
  revert count st. induction files as [|f files IH]; intros count st; [done|].
  rewrite for_specfiles_cons. destruct (de_is_file f); [|apply IH].
  destruct (process_update_spec_effect config env f st) as (Hq & _).
  destruct (process_update_spec config env f st) as [[e|[]] st1]; cbn [snd] in Hq.
  - destruct (is_NotFoundError e); [|done]. by rewrite IH.
  - by rewrite IH.
Qed.

Lemma loop_body_queue config env event t_last st :
  st_queue (loop_body config env event t_last st).2 = st_queue st.
Proof.
  destruct (Z.ltb_spec (st_now st - t_last) (min_interval config)) as [Hsoon|Hlate].
  - by rewrite loop_body_ignored.
  - rewrite loop_body_admitted by done.
    pose proof (for_specfiles_queue config env
                  (glob env ".yml" ++ glob env ".yaml") 0
                  (add_log (INFO, LTriggered (event_kind event)) st)) as Hpass.
    fold (process_update_specs config env) in Hpass.
    by destruct (process_update_specs config env _) as [[e|n] st1].
Qed.

Lemma events_next_put config st event st1 :
  events_next config st = (inr event, st1) →
  (next_put (max_interval config) st = None ∧ event = Timeout ∧
   st_queue st1 = st_queue st) ∨
  (∃ t_put, next_put (max_interval config) st = Some t_put ∧
            st_queue st = (t_put, event) :: st_queue st1).
Proof.
  unfold events_next, q_get, try_except, next_put.
  destruct (max_interval config <? 0)%Z; [done|].
  destruct (st_queue st) as [|[t_put ev] rest] eqn:Hq.
  - intros [= <- <-]. left. by rewrite <- Hq.
  - destruct (t_put <=? st_now st + max_interval config)%Z; intros [= <- <-].
    + right. by exists t_put.
    + left. done.
Qed.

Lemma events_next_raises config st e st1 :
  events_next config st = (inl e, st1) →
  (max_interval config < 0)%Z ∧ st1 = st.
Proof.
  unfold events_next, q_get, try_except.
  destruct (Z.ltb_spec (max_interval config) 0) as [Hneg|_].
  - by intros [= <- <-].
  - destruct (st_queue st) as [|[t_put ev] rest]; [done|].
    by destruct (t_put <=? st_now st + max_interval config)%Z.
Qed.

Lemma loop_from_dequeued config env fuel t_last st :
  st_queue st
  = dequeued (loop_from config env fuel t_last st).1.2
    ++ st_queue (loop_from config env fuel t_last st).2.
Proof.
  revert t_last st. induction fuel as [|fuel IH]; intros t_last st; [done|].
  rewrite loop_from_S.
  destruct (events_next config st) as [[e|event] st1] eqn:Hev.
  { apply events_next_raises in Hev as [_ ->]. done. }
  pose proof (loop_body_queue config env event t_last st1) as Hbody.
  apply events_next_put in Hev.
  destruct (loop_body config env event t_last st1) as [[e|t_last'] st2];
    cbn [fst snd] in *.
  - destruct Hev as [(Hput & _ & Hq)|(t_put & Hput & Hq)];
      unfold dequeued; cbn [omap list_omap it_put it_event]; rewrite Hput; cbn.
    + congruence.
    + rewrite Hq. congruence.
  - specialize (IH t_last' st2).
    destruct Hev as [(Hput & _ & Hq)|(t_put & Hput & Hq)];
      unfold dequeued in *; cbn [omap list_omap it_put it_event]; rewrite Hput; cbn.
    + rewrite <- IH. congruence.
    + rewrite <- IH, Hq. congruence.
Qed.

Lemma loop_from_timeout_synthesized config env fuel t_last st :
  Forall (λ it, it_put it = None → it_event it = Timeout)
    (loop_from config env fuel t_last st).1.2.
Proof.
  revert t_last st. induction fuel as [|fuel IH]; intros t_last st; [by constructor|].
  rewrite loop_from_S.
  destruct (events_next config st) as [[e|event] st1] eqn:Hev; [by constructor|].
  apply events_next_put in Hev.
  assert (next_put (max_interval config) st = None → event = Timeout) as Hnone.
  { destruct Hev as [(_ & -> & _)|(t_put & -> & _)]; done. }
  destruct (loop_body config env event t_last st1) as [[e|t_last'] st2];
    cbn [fst snd]; constructor; try done.
Qed.

Lemma interleaving_elem {A} (l1 l2 l : list A) x :
  interleaving l1 l2 l → x ∈ l → x ∈ l1 ∨ x ∈ l2.
Proof.
  induction 1 as [|y l1 l2 l _ IH|y l1 l2 l _ IH]; intros Hx.
  - by apply elem_of_nil in Hx.
  - apply elem_of_cons in Hx as [->|Hx]; [left; by left|].
    destruct (IH Hx); [left; by right|by right].
  - apply elem_of_cons in Hx as [->|Hx]; [right; by left|].
    destruct (IH Hx); [by left|right; by right].
Qed.

(** X1.  Processing one spec takes nothing from the queue and changes at
    most one InstallPlan of the cluster: a plan that was not approved, which
    becomes approved with its other fields as they were. *)
Theorem spec_changes_at_most_one_plan config env specfile st :
  let st' := (process_update_spec config env specfile st).2 in
  st_queue st' = st_queue st ∧
  ∃ k0, ∀ k,
    (k ≠ k0 → st_plans st' !! k = st_plans st !! k) ∧
    (st_plans st' !! k = st_plans st !! k ∨
     ∃ p, st_plans st !! k = Some p ∧ approved p = false ∧
          st_plans st' !! k
          = Some {| approved := true;
                    clusterServiceVersionNames := clusterServiceVersionNames p;
                    other_fields := other_fields p |}).
Proof.
  destruct (process_update_spec_effect config env specfile st)
    as (Hq & _ & [[_ Hplans]|Happrove]); cbv zeta; (split; [done|]).
  - exists ("", ""). intros k. rewrite Hplans. split; [done|by left].
  - destruct Happrove as (name & ns & want & plan & Hdec & _ & Happr & _ & _ & Hplans).
    destruct Hdec as (?&?&?&?&?&?&?&?&?&?&Hold).
    exists (metadata_name plan, ns). intros k. destruct Hplans as [->| ->].
    + split; [done|by left].
    + split; [intros Hne; by rewrite lookup_insert_ne|].
      destruct (decide (k = (metadata_name plan, ns))) as [->|Hne].
      * right. exists (ip_spec plan). by rewrite lookup_insert_eq.
      * left. by rewrite lookup_insert_ne.
Qed.

(** X2.  However long the program runs, no InstallPlan is created or
    deleted, the [clusterServiceVersionNames] and other fields of every plan
    stay as they were, and a plan that is approved stays approved. *)
Theorem run_keeps_plans_and_approvals config env fuel st :
  ∀ k,
    match st_plans st !! k with
    | Some p =>
        ∃ p', st_plans (main config env fuel st).2 !! k = Some p' ∧
              clusterServiceVersionNames p' = clusterServiceVersionNames p ∧
              other_fields p' = other_fields p ∧
              (approved p = true → approved p' = true)
    | None => st_plans (main config env fuel st).2 !! k = None
    end.
Proof.
  intros k. destruct (main_evolves config env fuel st) as (_ & _ & _ & Hmono & _).
  specialize (Hmono k). unfold plan_kept in Hmono.
  destruct (st_plans st !! k) as [p|],
           (st_plans (main config env fuel st).2 !! k) as [p'|]; try done.
  by exists p'.
Qed.

(** X3.  In a dry run ([approve_updates] off) the whole program, however
    long it runs, issues no patch call and leaves every InstallPlan as it
    is. *)
Theorem dry_run_never_writes config env fuel st :
  approve_updates config = false →
  st_plans (main config env fuel st).2 = st_plans st ∧
  st_patches (main config env fuel st).2 = st_patches st.
Proof.
  intros Hdry. destruct (main_evolves config env fuel st) as (_ & _ & _ & _ & H).
  by apply H.
Qed.

Lemma dry_run_never_writes_witness :
  let st := Fixtures.start 100 Fixtures.burst_queue Fixtures.installplan in
  st_plans (main default_config Fixtures.cluster 5 st).2 = st_plans st ∧
  st_patches (main default_config Fixtures.cluster 5 st).2 = st_patches st.
Proof.
  intros st. apply (dry_run_never_writes default_config Fixtures.cluster 5 st).
  reflexivity.
Defined.

(** X4.  The patch calls and the log of a run only grow, and every patch
    call the program ever issues carries a plan whose [approved] is true. *)
Theorem run_only_appends_approvals config env fuel st :
  (∃ new, st_patches (main config env fuel st).2 = st_patches st ++ new ∧
          Forall (λ c, approved (ip_spec c.1) = true) new) ∧
  (∃ new, st_log (main config env fuel st).2 = st_log st ++ new).
Proof.
  destruct (main_evolves config env fuel st) as (_ & Hlog & Hpatches & _). done.
Qed.

(** X5.  The loop receives the events in the order of the queue, each
    once: the events taken in a run, followed by those still waiting, are
    the queue the run started with. *)
Theorem events_received_in_queue_order config env fuel st :
  st_queue st
  = dequeued (loop config env fuel st).1.2 ++ st_queue (loop config env fuel st).2.
Proof. rewrite loop_unfold. apply loop_from_dequeued. Qed.

(** X6.  The watcher threads only ever put filesystem and subscription
    events on the queue, so, whatever the interleaving of their puts, an
    event the loop receives is the timeout event exactly when it was
    synthesized and not taken from the queue. *)
Theorem timeout_events_are_synthesized config env fuel st fs_stream sub_stream :
  interleaving (FileWatcher_run fs_stream) (SubscriptionWatcher_run sub_stream)
    (st_queue st) →
  ∀ it, it ∈ (loop config env fuel st).1.2 →
        (it_event it = Timeout ↔ it_put it = None).
Proof.
  intros Hq it Hit. split.
  - intros Htimeout. destruct (it_put it) as [t_put|] eqn:Hput; [|done].
    assert ((t_put, it_event it) ∈ st_queue st) as Hin.
    { rewrite loop_unfold in Hit.
      rewrite (loop_from_dequeued config env fuel 0 st).
      apply elem_of_app. left. unfold dequeued. apply list_elem_of_omap.
      exists it. split; [done|]. by rewrite Hput. }
    rewrite Htimeout in Hin.
    destruct (interleaving_elem _ _ _ _ Hq Hin) as [H|H];
      apply list_elem_of_fmap in H as ([t p] & [=] & _).
  - pose proof (loop_from_timeout_synthesized config env fuel 0 st) as Hall.
    rewrite <- loop_unfold in Hall.
    by apply (proj1 (Forall_forall _ _) Hall).
Qed.

Lemma timeout_events_are_synthesized_witness :
  Forall (λ it, it_event it = Timeout ↔ it_put it = None)
    (loop Fixtures.test_config Fixtures.cluster 5
       (Fixtures.start 100 Scenarios.mixed_queue Fixtures.installplan)).1.2.
Proof.
  apply Forall_forall.
  apply (timeout_events_are_synthesized Fixtures.test_config Fixtures.cluster 5
           (Fixtures.start 100 Scenarios.mixed_queue Fixtures.installplan)
           Scenarios.fs_stream Scenarios.sub_stream).
  apply interleaving_left, interleaving_right, interleaving_left, interleaving_nil.
Defined.

(** *** Outcomes of processing a spec *)

(** X7.  When the first name of [clusterServiceVersionNames] is not the
    version the spec asks for, the spec is skipped with a warning that
    says "invalid version" and names both versions; no patch is issued, the
    cluster is as it was, and processing returns normally. *)
Theorem version_mismatch_is_logged config env specfile st name namespace want plan have :
  at_decision env specfile st name namespace want plan →
  head (clusterServiceVersionNames (ip_spec plan)) = Some have →
  have ≠ want →
  let run := process_update_spec config env specfile in
  (run st).1 = inr () ∧
  st_plans (run st).2 = st_plans st ∧
  patches_issued run st = [] ∧
  last (logged run st) = Some (WARNING, LInvalidVersion name have want) ∧
  log_mentions "invalid version" (logged run st) = true.
Proof.
  intros Hdec Hhead Hne run. subst run. unfold patches_issued, logged.
  rewrite (decision_mismatch _ _ _ _ _ _ _ _ Hdec _ Hhead Hne).
  cbn [fst snd st_plans st_patches st_log add_log set_clock].
  rewrite <- !app_assoc, drop_length_app, drop_length_self. split_and!; try done.
  unfold log_mentions. cbn [app existsb snd render].
  do 2 (apply orb_true_iff; right). apply orb_true_iff; left.
  apply contains_app_r. reflexivity.
Qed.

Lemma version_mismatch_is_logged_witness :
  let run := process_update_spec Fixtures.test_config Fixtures.cluster
               (Fixtures.specfile "updateconfig.yaml") in
  let st := Fixtures.start 100 [] Fixtures.installplan_wrong_version in
  (run st).1 = inr () ∧
  st_plans (run st).2 = st_plans st ∧
  patches_issued run st = [] ∧
  last (logged run st)
  = Some (WARNING, LInvalidVersion "test-operator" "test-operator-2.0"
                     "test-operator-1.0") ∧
  log_mentions "invalid version" (logged run st) = true.
Proof.
  apply (version_mismatch_is_logged Fixtures.test_config Fixtures.cluster
           (Fixtures.specfile "updateconfig.yaml")
           (Fixtures.start 100 [] Fixtures.installplan_wrong_version)
           "test-operator" "test-ns" "test-operator-1.0"
           (Fixtures.fetched Fixtures.installplan_wrong_version)
           "test-operator-2.0").
  - apply fixture_at_decision.
  - reflexivity.
  - discriminate.
Defined.

(** X8.  In a dry run a plan that would be approved is only reported: a
    warning "approve version ... (dry run)" is logged, no patch is issued,
    the cluster is as it was, and processing returns normally. *)
Theorem dry_run_logs_the_approval config env specfile st name namespace want plan :
  at_decision env specfile st name namespace want plan →
  head (clusterServiceVersionNames (ip_spec plan)) = Some want →
  approved (ip_spec plan) = false →
  approve_updates config = false →
  let run := process_update_spec config env specfile in
  (run st).1 = inr () ∧
  st_plans (run st).2 = st_plans st ∧
  patches_issued run st = [] ∧
  last (logged run st) = Some (WARNING, LApprove name want true) ∧
  log_mentions "(dry run)" (logged run st) = true.
Proof.
  intros Hdec Hhead Happr Hdry run. subst run. unfold patches_issued, logged.
  rewrite (decision_dry_run _ _ _ _ _ _ _ _ Hdec Hhead Happr Hdry).
  cbn [fst snd st_plans st_patches st_log add_log set_clock].
  rewrite <- !app_assoc, drop_length_app, drop_length_self. split_and!; try done.
  unfold log_mentions. cbn [app existsb snd render].
  do 2 (apply orb_true_iff; right). apply orb_true_iff; left.
  do 3 apply contains_app_r. reflexivity.
Qed.

Lemma dry_run_logs_the_approval_witness :
  let run := process_update_spec default_config Fixtures.cluster
               (Fixtures.specfile "updateconfig.yaml") in
  let st := Fixtures.start 100 [] Fixtures.installplan in
  (run st).1 = inr () ∧
  st_plans (run st).2 = st_plans st ∧
  patches_issued run st = [] ∧
  last (logged run st)
  = Some (WARNING, LApprove "test-operator" "test-operator-1.0" true) ∧
  log_mentions "(dry run)" (logged run st) = true.
Proof.
  apply (dry_run_logs_the_approval default_config Fixtures.cluster
           (Fixtures.specfile "updateconfig.yaml")
           (Fixtures.start 100 [] Fixtures.installplan)
           "test-operator" "test-ns" "test-operator-1.0"
           (Fixtures.fetched Fixtures.installplan)).
  - apply fixture_at_decision.
  - reflexivity.
  - reflexivity.
  - reflexivity.
Defined.

Lemma main_uncaught config env fuel st cls msg its st' :
  e_connect env = None →
  loop config env fuel st = (Raised (OtherError cls msg), its, st') →
  ∀ more, main config env (fuel + more) st = (Uncaught (OtherError cls msg), its, st').
Proof.
  intros Hconnect Hloop more.
  rewrite main_connected, loop_unfold by done. rewrite loop_unfold in Hloop.
  by rewrite (loop_from_raised_stable _ _ _ more _ _ _ _ _ Hloop).
Qed.

(** X9.  A spec file that lacks the [name] key, or has it and lacks
    [namespace], raises [KeyError] before anything is logged or asked of the
    cluster.  The error is not caught: the pass stops there, leaving the
    files after it unprocessed, the loop ends, and [main] lets the error
    out without logging it. *)
Theorem spec_without_key_stops_the_program config env specfile spec key st :
  de_load specfile = inr spec →
  (key = "name" ∧ spec !! "name" = None) ∨
  (key = "namespace" ∧ is_Some (spec !! "name") ∧ spec !! "namespace" = None) →
  process_update_spec config env specfile st = (inl (OtherError "KeyError" key), st) ∧
  (de_is_file specfile = true →
   ∀ files count,
     for_specfiles config env (specfile :: files) count st
     = (inl (OtherError "KeyError" key), st)) ∧
  (∀ fuel st0 its st',
     e_connect env = None →
     loop config env fuel st0 = (Raised (OtherError "KeyError" key), its, st') →
     ∀ more,
       main config env (fuel + more) st0
       = (Uncaught (OtherError "KeyError" key), its, st')).
Proof.
  intros Hload Hkey.
  assert (process_update_spec config env specfile st
          = (inl (OtherError "KeyError" key), st)) as Hrun.
  { unfold process_update_spec.
    destruct Hkey as [[-> Hname]|(-> & [name Hname] & Hns)]; step; done. }
  split_and!.
  - done.
  - intros Hfile files count. by rewrite for_specfiles_cons, Hfile, Hrun.
  - intros fuel st0 its st' Hconnect Hloop more. by apply main_uncaught.
Qed.

Lemma spec_without_key_stops_the_program_witness :
  let env := Scenarios.cluster_with
               [Scenarios.nameless_file; Fixtures.specfile "updateconfig.yaml"] in
  let st := Fixtures.start 100 Fixtures.two_events Fixtures.installplan in
  ∃ its st',
    main Fixtures.test_config env 5 st
    = (Uncaught (OtherError "KeyError" "name"), its, st') ∧
    st_patches st' = [] ∧
    map (λ r, render r.2) (st_log st') = ["subscription check triggered by fs event"].
Proof.
  intros env st.
  pose (r := loop Fixtures.test_config env 1 st).
  exists r.1.2, r.2. split; [|split; vm_compute; reflexivity].
  apply (proj2 (proj2 (spec_without_key_stops_the_program Fixtures.test_config env
                         Scenarios.nameless_file
                         {[ "namespace" := "test-ns";
                            "version" := "test-operator-1.0" ]} "name" st
                         eq_refl (or_introl (conj eq_refl eq_refl))))
           1 st r.1.2 r.2 eq_refl ltac:(vm_compute; reflexivity) 4).
Defined.

(** X10.  When the Subscription has no [installPlanRef], processing raises
    [AttributeError] after the one call that fetched the Subscription: no
    InstallPlan is fetched, no patch is issued, the cluster is as it was.
    [main] does not catch the error. *)
Theorem subscription_without_plan_raises config env specfile spec name namespace sub st :
  de_load specfile = inr spec →
  spec !! "name" = Some name →
  spec !! "namespace" = Some namespace →
  e_fault env (GetSubscription name namespace) = None →
  e_subs env !! (name, namespace) = Some sub →
  installPlanRef sub = None →
  let run := process_update_spec config env specfile in
  (∃ msg, (run st).1 = inl (OtherError "AttributeError" msg) ∧
          ∀ st', main_except (OtherError "AttributeError" msg) st'
                 = (Uncaught (OtherError "AttributeError" msg), st')) ∧
  st_now (run st).2 = (st_now st + e_latency env (GetSubscription name namespace))%Z ∧
  st_plans (run st).2 = st_plans st ∧
  patches_issued run st = [] ∧
  logged run st = [(INFO, LProcessing name namespace)].
Proof.
  intros Hload Hname Hns Hfault Hsub Href run. subst run.
  unfold patches_issued, logged, process_update_spec. step.
  rewrite drop_length_self, drop_length_app. split_and!; try done. by eexists.
Qed.

Lemma subscription_without_plan_raises_witness :
  let run := process_update_spec Fixtures.test_config Scenarios.cluster_without_ref
               (Fixtures.specfile "updateconfig.yaml") in
  let st := Fixtures.start 100 [] Fixtures.installplan in
  st_now (run st).2 = 103%Z ∧ patches_issued run st = [].
Proof.
  intros run st.
  destruct (subscription_without_plan_raises Fixtures.test_config
              Scenarios.cluster_without_ref (Fixtures.specfile "updateconfig.yaml")
              Fixtures.updateconfig "test-operator" "test-ns"
              {| installPlanRef := None |} st
              eq_refl eq_refl eq_refl eq_refl eq_refl eq_refl)
    as (_ & Hnow & _ & Hpatches & _).
  split; [exact Hnow|exact Hpatches].
Defined.

Lemma patch_refused env body namespace st e :
  e_fault env (PatchInstallPlan body namespace) = Some e →
  installplans_patch env body namespace st
  = (inl e,
     set_clock (st_now st + e_latency env (PatchInstallPlan body namespace))
       (st_queue st) (add_patch (body, namespace) st)).
Proof. intros Hfault. unfold installplans_patch. step. done. Qed.

(** X11.  A patch that the cluster refuses is not taken for an approval:
    the error leaves [process_update_spec], the plan in the cluster is still
    unapproved, and processing the same spec again issues the same patch
    again. *)
Theorem refused_patch_is_issued_again config env specfile st name namespace want plan e :
  at_decision env specfile st name namespace want plan →
  head (clusterServiceVersionNames (ip_spec plan)) = Some want →
  approved (ip_spec plan) = false →
  approve_updates config = true →
  e_fault env (PatchInstallPlan (set_approved plan) namespace) = Some e →
  let run := process_update_spec config env specfile in
  (run st).1 = inl e ∧
  st_plans (run st).2 = st_plans st ∧
  patches_issued run st = [(set_approved plan, namespace)] ∧
  patches_issued run (run st).2 = [(set_approved plan, namespace)].
Proof.
  intros Hdec Hhead Happr Hmode Hfault run. subst run.
  assert (st_plans (process_update_spec config env specfile st).2 = st_plans st)
    as Hplans.
  { rewrite (decision_approve _ _ _ _ _ _ _ _ Hdec Hhead Happr Hmode).
    by rewrite (patch_refused _ _ _ _ _ Hfault). }
  assert (at_decision env specfile (process_update_spec config env specfile st).2
            name namespace want plan) as Hdec'.
  { destruct Hdec as (spec & sub & ?&?&?&?&?&?&?&?&?).
    exists spec, sub. rewrite Hplans. split_and!; done. }
  split_and!.
  - rewrite (decision_approve _ _ _ _ _ _ _ _ Hdec Hhead Happr Hmode).
    by rewrite (patch_refused _ _ _ _ _ Hfault).
  - done.
  - unfold patches_issued.
    rewrite (decision_approve _ _ _ _ _ _ _ _ Hdec Hhead Happr Hmode).
    rewrite patch_recorded. cbn [st_patches add_log set_clock].
    by rewrite drop_length_app.
  - unfold patches_issued.
    rewrite (decision_approve _ _ _ _ _ _ _ _ Hdec' Hhead Happr Hmode).
    rewrite patch_recorded. cbn [st_patches add_log set_clock].
    by rewrite drop_length_app.
Qed.

Lemma refused_patch_is_issued_again_witness :
  let run := process_update_spec Fixtures.test_config
               (Scenarios.cluster_patch_fails (DynamicApiError "500"))
               (Fixtures.specfile "updateconfig.yaml") in
  let st := Fixtures.start 100 [] Fixtures.installplan in
  (run st).1 = inl (DynamicApiError "500") ∧
  st_plans (run st).2 = st_plans st ∧
  length (st_patches (run (run st).2).2) = 2.
Proof.
  intros run st.
  destruct (refused_patch_is_issued_again Fixtures.test_config
              (Scenarios.cluster_patch_fails (DynamicApiError "500"))
              (Fixtures.specfile "updateconfig.yaml") st
              "test-operator" "test-ns" "test-operator-1.0"
              (Fixtures.fetched Fixtures.installplan) (DynamicApiError "500"))
    as (Hraise & Hplans & _ & _).
  - exists Fixtures.updateconfig, Fixtures.subscription. split_and!; reflexivity.
  - reflexivity.
  - reflexivity.
  - reflexivity.
  - reflexivity.
  - split; [exact Hraise|]. split; [exact Hplans|]. vm_compute. reflexivity.
Defined.

(** *** The loop in time *)

(** X12.  With a negative [max_interval] the first read of the queue
    raises [ValueError]: no event is received, no pass runs, and [main]
    lets the error out without logging it. *)
Theorem negative_max_interval_stops_the_program config env fuel st :
  (max_interval config < 0)%Z →
  e_connect env = None →
  ∃ msg,
    main config env (S fuel) st = (Uncaught (OtherError "ValueError" msg), [], st).
Proof.
  intros Hneg Hconnect. eexists.
  rewrite main_connected, loop_unfold, loop_from_S by done.
  unfold events_next, q_get, try_except.
  apply Z.ltb_lt in Hneg. rewrite Hneg. reflexivity.
Qed.

Lemma negative_max_interval_stops_the_program_witness :
  let config := {| approve_updates := true; max_interval := -1; min_interval := 10 |} in
  let st := Fixtures.start 100 Fixtures.two_events Fixtures.installplan in
  ∃ msg, main config Fixtures.cluster 3 st
         = (Uncaught (OtherError "ValueError" msg), [], st).
Proof.
  intros config st.
  apply (negative_max_interval_stops_the_program config Fixtures.cluster 2 st).
  - reflexivity.
  - reflexivity.
Defined.

(** X13.  When [min_interval] is at most [max_interval], nothing is put on
    the queue for [max_interval], and the time is not before [t_last], the
    next turn of the loop receives the synthesized timeout, at
    [max_interval] exactly, and runs [process_update_specs] for it. *)
Theorem quiet_timeout_starts_a_pass config env t_last st :
  (0 ≤ max_interval config)%Z →
  (min_interval config ≤ max_interval config)%Z →
  (t_last ≤ st_now st)%Z →
  quiet_for (max_interval config) st →
  let st1 := set_clock (st_now st + max_interval config) (st_queue st) st in
  ∃ it,
    it_event it = Timeout ∧
    it_start it = (st_now st + max_interval config)%Z ∧
    loop_from config env 1 t_last st
    = ((turn_with_pass config env Timeout st1).1, [it],
       (turn_with_pass config env Timeout st1).2).
Proof.
  intros Hmax Hminmax Hlast Hquiet st1.
  destruct (loop_turn config env t_last st Timeout st1
              (events_next_quiet config st Hmax Hquiet))
    as (it & Hev & _ & Hstart & Hloop).
  exists it. split; [done|]. split; [done|].
  rewrite Hloop.
  destruct (Z.ltb_spec (st_now st1 - t_last) (min_interval config)) as [Hsoon|_];
    [|done].
  subst st1. cbn [st_now set_clock] in Hsoon. lia.
Qed.

Lemma quiet_timeout_starts_a_pass_witness :
  let st := Fixtures.start 100 [] Fixtures.installplan in
  let st1 := set_clock 1000 [] st in
  ∃ it,
    it_event it = Timeout ∧ it_start it = 1000%Z ∧
    loop_from default_config Fixtures.cluster 1 100 st
    = ((turn_with_pass default_config Fixtures.cluster Timeout st1).1, [it],
       (turn_with_pass default_config Fixtures.cluster Timeout st1).2).
Proof.
  intros st st1.
  apply (quiet_timeout_starts_a_pass default_config Fixtures.cluster 100 st).
  - vm_compute; discriminate.
  - vm_compute; discriminate.
  - vm_compute; discriminate.
  - exact I.
Defined.

Lemma gate_chain_spaced d t_last now its :
  gate_chain d t_last now its →
  spaced_from d t_last (it_start <$> passes its).
Proof.
  revert t_last now. induction its as [|it its IH]; intros t_last now; [done|].
  cbn [gate_chain]. intros (_ & _ & Hadm & Hrest). unfold passes.
  cbn [List.filter]. destruct (it_admitted it) eqn:Hit.
  - cbn [fmap list_fmap spaced_from]. split.
    + symmetry in Hadm. by apply negb_true_iff, Z.ltb_ge in Hadm.
    + by eapply IH.
  - by eapply IH.
Qed.

Lemma spaced_from_lookup d t l j x :
  spaced_from d t l → l !! j = Some x → (Z.of_nat (S j) * d ≤ x - t)%Z.
Proof.
  revert t j. induction l as [|y l IH]; intros t j; [done|].
  cbn [spaced_from]. intros [Hy Hrest]. destruct j as [|j].
  - intros [= ->]. lia.
  - cbn. intros Hx. specialize (IH _ _ Hrest Hx). lia.
Qed.

Lemma spaced_from_between d t l i j a b :
  spaced_from d t l → l !! i = Some a → l !! j = Some b → i ≤ j →
  (Z.of_nat (j - i) * d ≤ b - a)%Z.
Proof.
  revert t i j. induction l as [|y l IH]; intros t i j; [done|].
  cbn [spaced_from]. intros [Hy Hrest]. destruct i as [|i].
  - intros [= ->]. destruct j as [|j].
    + intros [= ->] _. cbn. lia.
    + cbn [lookup list_lookup]. intros Hb _.
      pose proof (spaced_from_lookup _ _ _ _ _ Hrest Hb). cbn [Nat.sub]. lia.
  - destruct j as [|j]; [lia|]. cbn [lookup list_lookup Nat.sub].
    intros Ha Hb Hij. eapply IH; [done|done|done|lia].
Qed.

(** X14.  The passes of a run are rate limited: the [j]-th pass starts at
    least [(j - i) * min_interval] after the [i]-th. *)
Theorem passes_are_rate_limited config env fuel t_last st i j a b :
  passes (loop_from config env fuel t_last st).1.2 !! i = Some a →
  passes (loop_from config env fuel t_last st).1.2 !! j = Some b →
  i ≤ j →
  (Z.of_nat (j - i) * min_interval config ≤ it_start b - it_start a)%Z.
Proof.
  intros Ha Hb Hij.
  pose proof (gate_chain_spaced _ _ _ _
                (loop_from_gate_chain config env fuel t_last st)) as Hspaced.
  eapply spaced_from_between; [done| | |done].
  - by rewrite list_lookup_fmap, Ha.
  - by rewrite list_lookup_fmap, Hb.
Qed.

Lemma passes_are_rate_limited_witness :
  (Z.of_nat (1 - 0) * 10 ≤ 112 - 100)%Z.
Proof.
  apply (passes_are_rate_limited default_config Fixtures.cluster 3 0
           (Fixtures.start 100 Fixtures.burst_queue Fixtures.installplan) 0 1
           (Build_Iteration (FsEvent "a") (Some 100%Z) 0 100 true 100)
           (Build_Iteration (FsEvent "c") (Some 112%Z) 100 112 true 112)).
  - vm_compute; reflexivity.
  - vm_compute; reflexivity.
  - lia.
Defined.

(** X15.  The loop starts with [t_last = 0], so for the first event it
    receives it runs [process_update_specs] when the clock reads
    [min_interval] or more, as a wall clock does, and only logs the event
    as ignored, keeping [t_last = 0], when the clock reads less. *)
Theorem first_event_is_admitted_by_the_clock config env st event st1 :
  events_next config st = (inr event, st1) →
  ∃ it,
    it_event it = event ∧ it_last it = 0%Z ∧ it_start it = st_now st1 ∧
    ((min_interval config ≤ st_now st1)%Z →
     loop config env 1 st
     = ((turn_with_pass config env event st1).1, [it],
        (turn_with_pass config env event st1).2)) ∧
    ((st_now st1 < min_interval config)%Z →
     loop config env 1 st
     = ((turn_ignored event 0 st1).1, [it], (turn_ignored event 0 st1).2)).
Proof.
  intros Hev. rewrite loop_unfold.
  destruct (loop_turn config env 0 st event st1 Hev)
    as (it & Hevent & Hlast & Hstart & Hloop).
  exists it. split_and!; try done.
  - intros Hlate. rewrite Hloop.
    destruct (Z.ltb_spec (st_now st1 - 0) (min_interval config)); [lia|done].
  - intros Hsoon. rewrite Hloop.
    destruct (Z.ltb_spec (st_now st1 - 0) (min_interval config)); [done|lia].
Qed.

Lemma first_event_is_admitted_by_the_clock_witness :
  let st := Fixtures.start 5 [(5, FsEvent "a")]%Z Fixtures.installplan in
  let st1 := set_clock 5 [] st in
  ∃ it,
    it_last it = 0%Z ∧ it_start it = 5%Z ∧
    loop default_config Fixtures.cluster 1 st
    = (Running 0,
       [it],
       add_log (DEBUG, LIgnoring "fs" 0 5 (5 - 0)) st1).
Proof.
  intros st st1.
  destruct (first_event_is_admitted_by_the_clock default_config Fixtures.cluster
              st (FsEvent "a") st1 eq_refl)
    as (it & _ & Hlast & Hstart & _ & Hignored).
  exists it. split; [exact Hlast|]. split; [exact Hstart|].
  apply Hignored. vm_compute. reflexivity.
Defined.

(** *** The files of a pass *)

Lemma elem_of_List_filter {A} (p : A → bool) (l : list A) x :
  x ∈ List.filter p l ↔ x ∈ l ∧ p x = true.
Proof. by rewrite !list_elem_of_In, List.filter_In. Qed.

Lemma NoDup_fmap_filter {A B} (f : A → B) (p : A → bool) (l : list A) :
  NoDup (f <$> l) → NoDup (f <$> List.filter p l).
Proof.
  induction l as [|x l IH]; [done|]. cbn [fmap list_fmap List.filter].
  intros [Hx Hl]%NoDup_cons. destruct (p x); [|by apply IH].
  cbn [fmap list_fmap]. apply NoDup_cons. split; [|by apply IH].
  intros (y & Hy & Hin)%list_elem_of_fmap. apply elem_of_List_filter in Hin as [Hin _].
  apply Hx, list_elem_of_fmap. by exists y.
Qed.

(** X16.  In a directory, where no two entries have the same name, no spec
    file is processed twice in a pass. *)
Theorem spec_files_are_processed_once env :
  NoDup (de_name <$> e_dir env) →
  NoDup (de_name <$> spec_files env).
Proof.
  intros Hdir. unfold spec_files, glob.
  rewrite List.filter_app, fmap_app. apply NoDup_app. split_and!.
  - by do 2 apply NoDup_fmap_filter.
  - intros name (a & -> & Ha)%list_elem_of_fmap (b & Hab & Hb)%list_elem_of_fmap.
    apply elem_of_List_filter in Ha as [Ha _]. apply elem_of_List_filter in Ha as [_ Ha].
    apply elem_of_List_filter in Hb as [Hb _]. apply elem_of_List_filter in Hb as [_ Hb].
    cbv beta in Ha, Hb. apply yml_not_yaml in Ha. congruence.
  - by do 2 apply NoDup_fmap_filter.
Qed.

Lemma spec_files_are_processed_once_witness :
  NoDup (de_name <$> spec_files Fixtures.cluster_three_files).
Proof.
  apply (spec_files_are_processed_once Fixtures.cluster_three_files).
  cbn. repeat (apply NoDup_cons; split; [by (intros H; repeat (apply elem_of_cons in H as [[=]|H]); apply elem_of_nil in H)|]).
  apply NoDup_nil_2.
Defined.

(** X17.  A pass over a directory that holds no regular [*.yml] or
    [*.yaml] file returns the count 0 and does nothing: no call, no log
    record, no time spent. *)
Theorem pass_without_spec_files_does_nothing config env st :
  (∀ e, e ∈ e_dir env → is_spec_file e = false) →
  process_update_specs config env st = (inr 0, st).
Proof.
  intros Hnone. rewrite process_update_specs_spec_files.
  destruct (spec_files env) as [|e files] eqn:Hfiles; [done|].
  assert (e ∈ spec_files env) as Hin by (rewrite Hfiles; by left).
  apply spec_files_elem in Hin as [Hin Hspec]. rewrite (Hnone e Hin) in Hspec. done.
Qed.

Lemma pass_without_spec_files_does_nothing_witness :
  let env := Scenarios.cluster_with
               [ Fixtures.specfile "testfile.gz";
                 {| de_name := "subdir.yml"; de_is_file := false;
                    de_load := inl (OtherError "IsADirectoryError" "subdir.yml") |} ] in
  let st := Fixtures.start 100 [] Fixtures.installplan in
  process_update_specs Fixtures.test_config env st = (inr 0, st).
Proof.
  intros env st. apply (pass_without_spec_files_does_nothing _ env st).
  intros e He. cbn in He.
  apply elem_of_cons in He as [->|He]; [reflexivity|].
  apply list_elem_of_singleton in He as ->. reflexivity.
Defined.

(** X18.  A turn of the loop that runs a pass to its end logs first what
    triggered it and last the number of spec files of the pass and the
    time the pass took, from [t_start] to the end of the turn. *)
Theorem finished_pass_is_logged config env event t_last st t_last' st' :
  (min_interval config ≤ st_now st - t_last)%Z →
  loop_body config env event t_last st = (inr t_last', st') →
  st_log st' !! length (st_log st) = Some (INFO, LTriggered (event_kind event)) ∧
  last (st_log st')
  = Some (INFO, LFinished (length (spec_files env)) (st_now st' - st_now st)).
Proof.
  intros Hlate. rewrite loop_body_admitted by done.
  pose proof (for_specfiles_evolves config env
                (glob env ".yml" ++ glob env ".yaml") 0
                (add_log (INFO, LTriggered (event_kind event)) st))
    as (_ & (new & Hlog) & _).
  fold (process_update_specs config env) in Hlog.
  destruct (process_update_specs config env _) as [[e|n] st1] eqn:Hpass; [done|].
  intros [= <- <-]. cbn [snd st_log st_now add_log] in *.
  assert (n = length (spec_files env)) as ->.
  { rewrite process_update_specs_spec_files in Hpass.
    apply for_specfiles_count in Hpass as ->. cbn [Nat.add].
    unfold spec_files. by rewrite filter_idem. }
  split.
  - rewrite Hlog, <- !app_assoc. by rewrite lookup_app_r, Nat.sub_diag by lia.
  - by rewrite last_snoc.
Qed.

Lemma finished_pass_is_logged_witness :
  let st := Fixtures.start 100 [] Fixtures.installplan in
  let r := loop_body Fixtures.test_config Fixtures.slow_cluster Timeout 0 st in
  last (st_log r.2) = Some (INFO, LFinished 1 15).
Proof.
  intros st r.
  apply (finished_pass_is_logged Fixtures.test_config Fixtures.slow_cluster
           Timeout 0 st 100%Z r.2).
  - vm_compute; discriminate.
  - vm_compute; reflexivity.
Defined.

(** *** How [main] ends *)

(** X19.  How [main] ends is decided by the exception that ended the
    program, raised while the client was built or by the loop:
    [UnauthorizedError] is logged as "authorization failed", any other API
    error, [NotFoundError] included, as "unexpected openshift api error",
    [FileNotFoundError] as "unable to open config directory", each as one
    error record after which [main] returns; any other exception leaves
    [main] with nothing logged.  When the client cannot be built the loop
    does not run at all. *)
Theorem main_returns_after_one_error_message config env fuel st :
  let ended (e : exc) (its : list Iteration) (st' : State) :=
    match e with
    | UnauthorizedError s => (Returned, its, add_log (ERROR, LAuthFailed s) st')
    | NotFoundError s | DynamicApiError s =>
        (Returned, its, add_log (ERROR, LApiError s) st')
    | FileNotFoundError s => (Returned, its, add_log (ERROR, LConfigDir s) st')
    | QueueEmpty | OtherError _ _ => (Uncaught e, its, st')
    end in
  (∀ e, e_connect env = Some e → main config env fuel st = ended e [] st) ∧
  (∀ e its st',
     e_connect env = None →
     loop config env fuel st = (Raised e, its, st') →
     main config env fuel st = ended e its st') ∧
  (∀ t_last its st',
     e_connect env = None →
     loop config env fuel st = (Running t_last, its, st') →
     main config env fuel st = (StillRunning, its, st')).
Proof.
  intros ended. split_and!.
  - intros e Hconnect. rewrite (main_not_connected _ _ _ _ _ Hconnect).
    by destruct e.
  - intros e its st' Hconnect Hloop. rewrite main_connected, Hloop by done.
    by destruct e.
  - intros t_last its st' Hconnect Hloop. by rewrite main_connected, Hloop.
Qed.

Lemma main_returns_after_one_error_message_witness :
  let st := Fixtures.start 100 Fixtures.two_events Fixtures.installplan in
  ∃ its st',
    main default_config (Fixtures.failing_cluster (UnauthorizedError "401")) 5 st
    = (Returned, its, add_log (ERROR, LAuthFailed "401") st') ∧
    length its = 1.
Proof.
  intros st.
  pose (r := loop default_config (Fixtures.failing_cluster (UnauthorizedError "401")) 5 st).
  exists r.1.2, r.2. split; [|vm_compute; reflexivity].
  apply (proj1 (proj2 (main_returns_after_one_error_message default_config
                         (Fixtures.failing_cluster (UnauthorizedError "401")) 5 st))
           (UnauthorizedError "401") r.1.2 r.2 eq_refl).
  vm_compute; reflexivity.
Defined.

(** X20.  A patch that the cluster answers with [NotFoundError] is handled
    like a missing object: the patch call has been issued, the pass logs
    "unable to find ...", counts the spec, and goes on with the next
    file. *)
Theorem patch_not_found_is_skipped config env specfile st name namespace want plan s :
  de_is_file specfile = true →
  at_decision env specfile st name namespace want plan →
  head (clusterServiceVersionNames (ip_spec plan)) = Some want →
  approved (ip_spec plan) = false →
  approve_updates config = true →
  e_fault env (PatchInstallPlan (set_approved plan) namespace)
  = Some (NotFoundError s) →
  ∃ st1,
    process_update_spec config env specfile st = (inl (NotFoundError s), st1) ∧
    st_patches st1 = st_patches st ++ [(set_approved plan, namespace)] ∧
    st_plans st1 = st_plans st ∧
    ∀ files count,
      for_specfiles config env (specfile :: files) count st
      = for_specfiles config env files (S count)
          (add_log (ERROR, LUnableToFind s) st1).
Proof.
  intros Hfile Hdec Hhead Happr Hmode Hfault. eexists. split_and!.
  - rewrite (decision_approve _ _ _ _ _ _ _ _ Hdec Hhead Happr Hmode).
    by rewrite (patch_refused _ _ _ _ _ Hfault).
  - done.
  - done.
  - intros files count. rewrite for_specfiles_cons, Hfile.
    rewrite (decision_approve _ _ _ _ _ _ _ _ Hdec Hhead Happr Hmode).
    by rewrite (patch_refused _ _ _ _ _ Hfault).
Qed.

Lemma patch_not_found_is_skipped_witness :
  let env := Scenarios.cluster_patch_fails (NotFoundError "404") in
  let st := Fixtures.start 100 [] Fixtures.installplan in
  (process_update_specs Fixtures.test_config env st).1 = inr 1 ∧
  length (st_patches (process_update_specs Fixtures.test_config env st).2) = 1.
Proof.
  intros env st.
  destruct (patch_not_found_is_skipped Fixtures.test_config env
              (Fixtures.specfile "updateconfig.yaml") st
              "test-operator" "test-ns" "test-operator-1.0"
              (Fixtures.fetched Fixtures.installplan) "404")
    as (st1 & _ & _ & _ & Hpass).
  - reflexivity.
  - exists Fixtures.updateconfig, Fixtures.subscription. split_and!; reflexivity.
  - reflexivity.
  - reflexivity.
  - reflexivity.
  - reflexivity.
  - split; vm_compute; reflexivity.
Defined.

(** *** The clock *)

Section Clock.

Context (config : Config) (env : Env).
Hypothesis Hlatency : ∀ c, (0 ≤ e_latency env c)%Z.

Lemma never_back_pure {A} (m : M A) :
  (∀ st, (m st).2 = st) → never_back m.
Proof. intros Hm st. by rewrite Hm. Qed.

Lemma never_back_bind {A B} (m : M A) (k : A → M B) :
  never_back m → (∀ a, never_back (k a)) → never_back (m ≫= k).
Proof.
  intros Hm Hk st. unfold mbind, M_bind, bind. specialize (Hm st).
  destruct (m st) as [[e|a] st1]; cbn [snd] in *; [done|].
  specialize (Hk a st1). lia.
Qed.

Lemma never_back_try {A} (m : M A) classes handler :
  never_back m → (∀ e, never_back (handler e)) → never_back (try_except m classes handler).
Proof.
  intros Hm Hh st. unfold try_except. specialize (Hm st).
  destruct (m st) as [[e|a] st1]; cbn [snd] in *; [|done].
  destruct (classes e); [|done]. specialize (Hh e st1). lia.
Qed.

Lemma never_back_of_sum {A} (r : exc + A) : never_back (of_sum r).
Proof. apply never_back_pure. by destruct r. Qed.

Lemma never_back_getitem d k : never_back (getitem d k).
Proof. apply never_back_pure. intros st. unfold getitem. by destruct (d !! k). Qed.

Lemma never_back_index0 l : never_back (index0 l).
Proof. apply never_back_pure. by destruct l. Qed.

Lemma never_back_ref sub : never_back (installPlanRef_name sub).
Proof.
  apply never_back_pure. intros st. unfold installPlanRef_name.
  by destruct (installPlanRef sub).
Qed.

Lemma never_back_LOG l m : never_back (LOG l m).
Proof. by intros st. Qed.

Lemma never_back_ret {A} (a : A) : never_back (mret a).
Proof. by intros st. Qed.

Lemma never_back_subscriptions_get name namespace :
  never_back (subscriptions_get env name namespace).
Proof using Hlatency.
  intros st. rewrite subscriptions_get_state. cbn.
  specialize (Hlatency (GetSubscription name namespace)). lia.
Qed.

Lemma never_back_installplans_get name namespace :
  never_back (installplans_get env name namespace).
Proof using Hlatency.
  intros st. rewrite installplans_get_state. cbn.
  specialize (Hlatency (GetInstallPlan name namespace)). lia.
Qed.

Lemma never_back_installplans_patch body namespace :
  never_back (installplans_patch env body namespace).
Proof using Hlatency.
  intros st. unfold installplans_patch. step.
  specialize (Hlatency (PatchInstallPlan body namespace)).
  destruct (e_fault env (PatchInstallPlan body namespace)); step; [lia|].
  destruct (st_plans st !! (metadata_name body, namespace)); step; lia.
Qed.

Lemma never_back_process_update_spec specfile :
  never_back (process_update_spec config env specfile).
Proof using Hlatency.
  unfold process_update_spec.
  apply never_back_bind; [apply never_back_of_sum|intros spec].
  apply never_back_bind; [apply never_back_getitem|intros name].
  apply never_back_bind; [apply never_back_getitem|intros namespace].
  apply never_back_bind; [apply never_back_LOG|intros _].
  apply never_back_bind; [apply never_back_subscriptions_get|intros sub].
  apply never_back_bind; [apply never_back_ref|intros plan_name].
  apply never_back_bind; [apply never_back_LOG|intros _].
  apply never_back_bind; [apply never_back_installplans_get|intros plan].
  apply never_back_bind; [apply never_back_index0|intros have].
  apply never_back_bind; [apply never_back_getitem|intros want].
  destruct (negb (have =? want)%string); [apply never_back_LOG|].
  destruct (approved (ip_spec plan)); [apply never_back_LOG|].
  apply never_back_bind; [apply never_back_LOG|intros _].
  destruct (approve_updates config);
    [apply never_back_installplans_patch|apply never_back_ret].
Qed.

Lemma never_back_for_specfiles files count :
  never_back (for_specfiles config env files count).
Proof using Hlatency.
  revert count. induction files as [|f files IH]; intros count.
  { apply never_back_ret. }
  cbn [for_specfiles]. destruct (de_is_file f); [|apply IH].
  apply never_back_bind; [|intros _; apply IH].
  apply never_back_try; [apply never_back_process_update_spec|].
  intros e. apply never_back_LOG.
Qed.

Lemma never_back_loop_body event t_last :
  never_back (loop_body config env event t_last).
Proof using Hlatency.
  unfold loop_body.
  apply never_back_bind; [by intros st|intros t_start].
  destruct (t_start - t_last <? min_interval config)%Z.
  - apply never_back_bind; [apply never_back_LOG|intros _; apply never_back_ret].
  - apply never_back_bind; [apply never_back_LOG|intros _].
    apply never_back_bind; [apply never_back_for_specfiles|intros sub_count].
    apply never_back_bind; [by intros st|intros t_end].
    apply never_back_bind; [apply never_back_LOG|intros _; apply never_back_ret].
Qed.

Lemma loop_from_in_time fuel t_last st :
  (t_last ≤ st_now st)%Z →
  Forall (λ it, (it_last it ≤ it_start it ≤ it_end it)%Z ∧
                (it_put it = None →
                 (max_interval config ≤ it_start it - it_last it)%Z))
    (loop_from config env fuel t_last st).1.2.
Proof using Hlatency.
  revert t_last st. induction fuel as [|fuel IH]; intros t_last st Hlast;
    [by constructor|].
  rewrite loop_from_S.
  destruct (events_next config st) as [[e|event] st1] eqn:Hev; [by constructor|].
  assert (0 ≤ max_interval config)%Z as Hmax.
  { destruct (Z.ltb_spec (max_interval config) 0) as [Hneg|]; [|done].
    unfold events_next, q_get, try_except in Hev.
    apply Z.ltb_lt in Hneg. by rewrite Hneg in Hev. }
  assert (next_put (max_interval config) st = None →
          st_now st1 = (st_now st + max_interval config)%Z) as Hnone.
  { rewrite events_next_cases in Hev by done. unfold next_put.
    destruct (st_queue st) as [|[t_put ev] rest]; [by intros _; simplify_eq|].
    destruct (t_put <=? st_now st + max_interval config)%Z; [done|].
    intros _. by simplify_eq. }
  apply events_next_clock in Hev as (Hclock & _).
  pose proof (never_back_loop_body event t_last st1) as Hbody.
  pose proof (loop_body_next config env event t_last st1) as Hnext.
  destruct (loop_body config env event t_last st1) as [[e|t_last'] st2];
    cbn [fst snd] in *.
  - constructor; [|by constructor]. cbn. split; [lia|].
    intros Hput. specialize (Hnone Hput). lia.
  - constructor.
    + cbn. split; [lia|]. intros Hput. specialize (Hnone Hput). lia.
    + apply IH. rewrite (Hnext _ _ eq_refl).
      destruct (negb _); lia.
Qed.

End Clock.

(** X21.  When no call on the cluster takes negative time, the clock of a
    run never goes back: every turn of the loop receives its event no
    earlier than [t_last] and ends no earlier than it started, so no
    elapsed time the loop computes is negative. *)
Theorem elapsed_times_are_not_negative config env fuel st :
  (∀ c, (0 ≤ e_latency env c)%Z) →
  (0 ≤ st_now st)%Z →
  Forall (λ it, (0 ≤ it_start it - it_last it)%Z ∧ (0 ≤ it_end it - it_start it)%Z)
    (loop config env fuel st).1.2.
Proof.
  intros Hlatency Hnow. rewrite loop_unfold.
  eapply Forall_impl; [by apply loop_from_in_time|].
  cbv beta. intros it [? _]. lia.
Qed.

Lemma elapsed_times_are_not_negative_witness :
  Forall (λ it, (0 ≤ it_start it - it_last it)%Z ∧ (0 ≤ it_end it - it_start it)%Z)
    (loop default_config Fixtures.slow_cluster 4
       (Fixtures.start 100 Fixtures.two_events Fixtures.installplan)).1.2.
Proof.
  apply (elapsed_times_are_not_negative default_config Fixtures.slow_cluster 4
           (Fixtures.start 100 Fixtures.two_events Fixtures.installplan)).
  - intros [| |]; intros; cbn; lia.
  - cbn. lia.
Defined.

Lemma loop_from_add config env n m t_last st t' its st' :
  loop_from config env n t_last st = (Running t', its, st') →
  loop_from config env (n + m) t_last st
  = ((loop_from config env m t' st').1.1,
     its ++ (loop_from config env m t' st').1.2,
     (loop_from config env m t' st').2).
Proof.
  revert t_last st its. induction n as [|n IH]; intros t_last st its.
  { cbn. intros [= <- <- <-]. by destruct (loop_from config env m t_last st) as [[??]?]. }
  cbn [Nat.add]. rewrite !loop_from_S.
  destruct (events_next config st) as [[e|event] st1]; [done|].
  destruct (loop_body config env event t_last st1) as [[e|t_last1] st2]; [done|].
  destruct (loop_from config env n t_last1 st2) as [[out its1] st3] eqn:Hrec.
  cbn [fst snd]. intros [= -> <- <-].
  by rewrite (IH _ _ _ Hrec).
Qed.

Lemma loop_from_running_in_time config env fuel t_last st t' its st' :
  (∀ c, (0 ≤ e_latency env c)%Z) →
  (t_last ≤ st_now st)%Z →
  loop_from config env fuel t_last st = (Running t', its, st') →
  (t' ≤ st_now st')%Z.
Proof.
  intros Hlatency. revert t_last st its.
  induction fuel as [|fuel IH]; intros t_last st its Hlast.
  { cbn. by intros [= <- <- <-]. }
  rewrite loop_from_S.
  destruct (events_next config st) as [[e|event] st1] eqn:Hev; [done|].
  apply events_next_clock in Hev as (Hclock & _).
  pose proof (never_back_loop_body config env Hlatency event t_last st1) as Hbody.
  pose proof (loop_body_next config env event t_last st1) as Hnext.
  destruct (loop_body config env event t_last st1) as [[e|t_last1] st2];
    cbn [fst snd] in *; [done|].
  destruct (loop_from config env fuel t_last1 st2) as [[out its1] st3] eqn:Hrec.
  cbn [fst snd]. intros [= -> <- <-].
  eapply IH; [|done]. rewrite (Hnext _ _ eq_refl). destruct (negb _); lia.
Qed.

(** X22.  When [min_interval] is at most [max_interval] and no call takes
    negative time, then at every point of a run at which nothing is put on
    the queue for [max_interval], the next turn of the loop receives the
    synthesized timeout and runs [process_update_specs] for it: the
    program reconciles at least once every [max_interval] of waiting. *)
Theorem synthesized_timeouts_start_passes config env n st t_last its st_n :
  (∀ c, (0 ≤ e_latency env c)%Z) →
  (0 ≤ st_now st)%Z →
  (0 ≤ max_interval config)%Z →
  (min_interval config ≤ max_interval config)%Z →
  loop config env n st = (Running t_last, its, st_n) →
  quiet_for (max_interval config) st_n →
  let st1 := set_clock (st_now st_n + max_interval config) (st_queue st_n) st_n in
  ∃ it,
    it_event it = Timeout ∧
    it_start it = (st_now st_n + max_interval config)%Z ∧
    loop config env (n + 1) st
    = ((turn_with_pass config env Timeout st1).1, its ++ [it],
       (turn_with_pass config env Timeout st1).2).
Proof.
  intros Hlatency Hnow Hmax Hminmax Hrun Hquiet st1. rewrite loop_unfold in *.
  pose proof (loop_from_running_in_time _ _ _ _ _ _ _ _ Hlatency Hnow Hrun) as Hlast.
  destruct (loop_turn config env t_last st_n Timeout st1
              (events_next_quiet config st_n Hmax Hquiet))
    as (it & Hev & _ & Hstart & Hloop).
  exists it. split; [done|]. split; [done|].
  rewrite (loop_from_add _ _ _ 1 _ _ _ _ _ Hrun), Hloop.
  destruct (Z.ltb_spec (st_now st1 - t_last) (min_interval config)) as [Hsoon|_];
    [|done].
  subst st1. cbn [st_now set_clock] in Hsoon. lia.
Qed.

Lemma synthesized_timeouts_start_passes_witness :
  let st := Fixtures.start 100 Fixtures.two_events Fixtures.installplan in
  let r := loop Fixtures.test_config Fixtures.cluster 2 st in
  let st1 := set_clock (st_now r.2 + 2) (st_queue r.2) r.2 in
  ∃ it,
    it_event it = Timeout ∧ it_start it = (st_now r.2 + 2)%Z ∧
    loop Fixtures.test_config Fixtures.cluster (2 + 1) st
    = ((turn_with_pass Fixtures.test_config Fixtures.cluster Timeout st1).1,
       r.1.2 ++ [it],
       (turn_with_pass Fixtures.test_config Fixtures.cluster Timeout st1).2).
Proof.
  intros st r st1.
  apply (synthesized_timeouts_start_passes Fixtures.test_config Fixtures.cluster
           2 st 102%Z r.1.2 r.2).
  - intros c. cbn. lia.
  - cbn. lia.
  - cbn. lia.
  - cbn. lia.
  - vm_compute. reflexivity.
  - vm_compute. reflexivity.
Defined.
